(** * backend/src/utils/crypto.ts

    A shallow embedding of the five operations exported by [crypto.ts]
    ([generateKeyPair], [encryptAsymmetric], [decryptAsymmetric],
    [encryptSymmetric], [decryptSymmetric]) together with the parts of
    [tweetnacl-util] and [tweetnacl] they call.

    - JavaScript strings are sequences of UTF-16 code units ([jsstring]).
    - A [Uint8Array] is a [list byte].
    - A thrown exception is a value [Throw e]; an error object carries the
      [name] of its class and its [message].
    - The process-wide random generator is an explicit state ([rng]). *)

From Stdlib Require Import ZArith String Ascii List Bool Lia.
From Stdlib Require Import Strings.Byte.
Import ListNotations.
Local Open Scope Z_scope.

(** ** Bytes and strings *)

Definition bytes := list byte.

(** The numeric value of an array element, 0..255. *)
Definition byte_val (b : byte) : Z := Z.of_N (Byte.to_N b).

(** Storing a number into a [Uint8Array] keeps its low eight bits. *)
Definition mkbyte (z : Z) : byte :=
  match Byte.of_N (Z.to_N (z mod 256)) with
  | Some b => b
  | None => x00
  end.

(** A JavaScript string: its UTF-16 code units, each in 0..65535. *)
Definition jsstring := list Z.

Definition code_unit (c : Z) : Prop := 0 <= c < 65536.

Definition js_wf (s : jsstring) : Prop := Forall code_unit s.

(** A string literal of the source, as code units. *)
Definition js (s : string) : jsstring :=
  map (fun a => Z.of_N (N_of_ascii a)) (list_ascii_of_string s).

(** ** Exceptions *)

Record js_error := mkError { name : string; message : string }.

Definition TypeError (msg : string) : js_error := mkError "TypeError" msg.
Definition Error (msg : string) : js_error := mkError "Error" msg.
Definition URIError (msg : string) : js_error := mkError "URIError" msg.

Inductive result (A : Type) : Type :=
| Ok (a : A)
| Throw (e : js_error).
Arguments Ok {A} a.
Arguments Throw {A} e.

Definition bind {A B} (r : result A) (k : A -> result B) : result B :=
  match r with
  | Ok a => k a
  | Throw e => Throw e
  end.

Notation "'let*' x ':=' r 'in' k" := (bind r (fun x => k))
  (at level 10, x name, r at level 100, k at level 200).

(** ** tweetnacl-util (the Node.js branch) *)

Module util.

(** [A-Za-z0-9+/] *)
Definition unbase64 (c : Z) : option Z :=
  if (65 <=? c) && (c <=? 90) then Some (c - 65)
  else if (97 <=? c) && (c <=? 122) then Some (c - 97 + 26)
  else if (48 <=? c) && (c <=? 57) then Some (c - 48 + 52)
  else if c =? 43 then Some 62
  else if c =? 47 then Some 63
  else None.

Definition b64char (v : Z) : Z :=
  if v <? 26 then 65 + v
  else if v <? 52 then 97 + (v - 26)
  else if v <? 62 then 48 + (v - 52)
  else if v =? 62 then 43
  else 47.

Definition pad : Z := 61.

Definition is_alpha (c : Z) : bool :=
  match unbase64 c with Some _ => true | None => false end.

Definition is_alpha_or_pad (c : Z) : bool := is_alpha c || (c =? pad).

(** [/^(?:[A-Za-z0-9+\/]{2}[A-Za-z0-9+\/=]{2})*$/.test(s)] *)
Fixpoint base64_regex (s : jsstring) : bool :=
  match s with
  | [] => true
  | a :: b :: c :: d :: rest =>
      is_alpha a && is_alpha b && is_alpha_or_pad c && is_alpha_or_pad d
      && base64_regex rest
  | _ => false
  end.

Definition validateBase64 (s : jsstring) : result unit :=
  if base64_regex s then Ok tt else Throw (TypeError "invalid encoding").

(** [Buffer.from(arr).toString('base64')]: RFC 4648 with padding. *)
Fixpoint encodeBase64 (arr : bytes) : jsstring :=
  match arr with
  | [] => []
  | [a] =>
      let a := byte_val a in
      [b64char (a / 4); b64char (a mod 4 * 16); pad; pad]
  | [a; b] =>
      let a := byte_val a in
      let b := byte_val b in
      [b64char (a / 4); b64char (a mod 4 * 16 + b / 16);
       b64char (b mod 16 * 4); pad]
  | a :: b :: c :: rest =>
      let a := byte_val a in
      let b := byte_val b in
      let c := byte_val c in
      b64char (a / 4) :: b64char (a mod 4 * 16 + b / 16)
      :: b64char (b mod 16 * 4 + c / 64) :: b64char (c mod 64)
      :: encodeBase64 rest
  end.

(** [Buffer.from(s, 'base64')] on a string that passed [validateBase64]:
    every group of four characters yields one byte per character after
    the first, and decoding stops at the first ['=']. *)
Fixpoint buffer_from_base64 (s : jsstring) : bytes :=
  match s with
  | a :: b :: c :: d :: rest =>
      match unbase64 a, unbase64 b with
      | Some va, Some vb =>
          mkbyte (va * 4 + vb / 16) ::
          match unbase64 c with
          | Some vc =>
              mkbyte (vb mod 16 * 16 + vc / 4) ::
              match unbase64 d with
              | Some vd => mkbyte (vc mod 4 * 64 + vd) :: buffer_from_base64 rest
              | None => []
              end
          | None => []
          end
      | _, _ => []
      end
  | _ => []
  end.

Definition decodeBase64 (s : jsstring) : result bytes :=
  let* _ := validateBase64 s in
  Ok (buffer_from_base64 s).

(** The UTF-8 octets of a code point. *)
Definition utf8_octets (v : Z) : bytes :=
  if v <? 128 then [mkbyte v]
  else if v <? 2048 then [mkbyte (192 + v / 64); mkbyte (128 + v mod 64)]
  else if v <? 65536 then
    [mkbyte (224 + v / 4096); mkbyte (128 + v / 64 mod 64);
     mkbyte (128 + v mod 64)]
  else
    [mkbyte (240 + v / 262144); mkbyte (128 + v / 4096 mod 64);
     mkbyte (128 + v / 64 mod 64); mkbyte (128 + v mod 64)].

Definition is_high_surrogate (c : Z) : bool := (55296 <=? c) && (c <=? 56319).
Definition is_low_surrogate (c : Z) : bool := (56320 <=? c) && (c <=? 57343).

Definition uri_malformed : js_error := URIError "URI malformed".

(** [unescape(encodeURIComponent(s))], one char code per array element:
    code units are paired into code points, an unpaired surrogate throws. *)
Fixpoint decodeUTF8 (s : jsstring) : result bytes :=
  match s with
  | [] => Ok []
  | c :: rest =>
      if is_low_surrogate c then Throw uri_malformed
      else if is_high_surrogate c then
        match rest with
        | [] => Throw uri_malformed
        | k :: rest' =>
            if is_low_surrogate k then
              let v := (c - 55296) * 1024 + (k - 56320) + 65536 in
              let* tl := decodeUTF8 rest' in
              Ok (utf8_octets v ++ tl)
            else Throw uri_malformed
        end
      else
        let* tl := decodeUTF8 rest in
        Ok (utf8_octets c ++ tl)
  end.

Definition is_continuation (b : Z) : bool := (128 <=? b) && (b <? 192).

(** The code units of a code point. *)
Definition code_units (v : Z) : jsstring :=
  if v <? 65536 then [v]
  else [55296 + (v - 65536) / 1024; 56320 + (v - 65536) mod 1024].

(** [decodeURIComponent(escape(...))] over the array's char codes: a strict
    UTF-8 decoder (overlong forms, surrogates and values above 0x10FFFF
    throw). *)
Fixpoint utf8_to_string (arr : bytes) : result jsstring :=
  match arr with
  | [] => Ok []
  | b0 :: rest =>
      let x0 := byte_val b0 in
      if x0 <? 128 then
        let* tl := utf8_to_string rest in Ok (x0 :: tl)
      else if x0 <? 192 then Throw uri_malformed
      else if x0 <? 224 then
        match rest with
        | b1 :: rest1 =>
            let x1 := byte_val b1 in
            let v := (x0 - 192) * 64 + (x1 - 128) in
            if is_continuation x1 && (128 <=? v) then
              let* tl := utf8_to_string rest1 in Ok (code_units v ++ tl)
            else Throw uri_malformed
        | _ => Throw uri_malformed
        end
      else if x0 <? 240 then
        match rest with
        | b1 :: b2 :: rest2 =>
            let x1 := byte_val b1 in
            let x2 := byte_val b2 in
            let v := (x0 - 224) * 4096 + (x1 - 128) * 64 + (x2 - 128) in
            if is_continuation x1 && is_continuation x2 && (2048 <=? v)
               && negb ((55296 <=? v) && (v <=? 57343)) then
              let* tl := utf8_to_string rest2 in Ok (code_units v ++ tl)
            else Throw uri_malformed
        | _ => Throw uri_malformed
        end
      else if x0 <? 248 then
        match rest with
        | b1 :: b2 :: b3 :: rest3 =>
            let x1 := byte_val b1 in
            let x2 := byte_val b2 in
            let x3 := byte_val b3 in
            let v := (x0 - 240) * 262144 + (x1 - 128) * 4096
                     + (x2 - 128) * 64 + (x3 - 128) in
            if is_continuation x1 && is_continuation x2 && is_continuation x3
               && (65536 <=? v) && (v <=? 1114111) then
              let* tl := utf8_to_string rest3 in Ok (code_units v ++ tl)
            else Throw uri_malformed
        | _ => Throw uri_malformed
        end
      else Throw uri_malformed
  end.

(** [util.encodeUTF8(arr)]. The function reads [arr.length] first, so a
    [null] argument raises the engine's [TypeError]. *)
Definition encodeUTF8 (arr : option bytes) : result jsstring :=
  match arr with
  | None => Throw (TypeError "Cannot read properties of null (reading 'length')")
  | Some a => utf8_to_string a
  end.

End util.

(** ** The random source *)

(** The generator behind [nacl.randomBytes]: the bytes it will ever
    produce, and how many of them have been handed out. *)
Record rng := mkRng { entropy : nat -> byte; consumed : nat }.

(** An operation that may consume entropy and may throw. *)
Definition M (A : Type) : Type := rng -> result A * rng.

(** ** tweetnacl *)

Module nacl.

(** The low-level primitives of the library
    (curve25519-xsalsa20-poly1305), taken as given. *)
Record core := mkCore {
  crypto_scalarmult_base : bytes -> bytes;
  crypto_box_beforenm : bytes -> bytes -> bytes;
  crypto_secretbox : bytes -> bytes -> bytes -> bytes;
  crypto_secretbox_open : bytes -> bytes -> bytes -> option bytes
}.

Record keypair := mkKeypair { publicKey : bytes; secretKey : bytes }.

Definition crypto_box_PUBLICKEYBYTES : nat := 32.
Definition crypto_box_SECRETKEYBYTES : nat := 32.
Definition crypto_secretbox_KEYBYTES : nat := 32.
Definition crypto_secretbox_NONCEBYTES : nat := 24.
Definition crypto_secretbox_BOXZEROBYTES : nat := 16.

Definition randomBytes (n : nat) (g : rng) : bytes * rng :=
  (map (entropy g) (seq (consumed g) n),
   mkRng (entropy g) (consumed g + n)).

Definition checkLengths (k n : bytes) : result unit :=
  if negb (length k =? crypto_secretbox_KEYBYTES)%nat
  then Throw (Error "bad key size")
  else if negb (length n =? crypto_secretbox_NONCEBYTES)%nat
  then Throw (Error "bad nonce size")
  else Ok tt.

Definition checkBoxLengths (pk sk : bytes) : result unit :=
  if negb (length pk =? crypto_box_PUBLICKEYBYTES)%nat
  then Throw (Error "bad public key size")
  else if negb (length sk =? crypto_box_SECRETKEYBYTES)%nat
  then Throw (Error "bad secret key size")
  else Ok tt.

Section WithCore.
Variable prim : core.

Definition secretbox (msg nonce key : bytes) : result bytes :=
  let* _ := checkLengths key nonce in
  Ok (crypto_secretbox prim msg nonce key).

(** [null] (here [None]) when the box is too short or fails to verify. *)
Definition secretbox_open (box nonce key : bytes) : result (option bytes) :=
  let* _ := checkLengths key nonce in
  if (length box <? crypto_secretbox_BOXZEROBYTES)%nat then Ok None
  else Ok (crypto_secretbox_open prim box nonce key).

Definition box_before (publicKey secretKey : bytes) : result bytes :=
  let* _ := checkBoxLengths publicKey secretKey in
  Ok (crypto_box_beforenm prim publicKey secretKey).

Definition box (msg nonce publicKey secretKey : bytes) : result bytes :=
  let* k := box_before publicKey secretKey in
  secretbox msg nonce k.

Definition box_open (msg nonce publicKey secretKey : bytes)
  : result (option bytes) :=
  let* k := box_before publicKey secretKey in
  secretbox_open msg nonce k.

Definition box_keyPair (g : rng) : keypair * rng :=
  let (sk, g') := randomBytes crypto_box_SECRETKEYBYTES g in
  (mkKeypair (crypto_scalarmult_base prim sk) sk, g').

End WithCore.

(** What the wrappers rely on from the primitives: the sizes of the
    arrays they fill, Diffie-Hellman agreement, and that a sealed box
    opens to its message under the same nonce and key. *)
Definition public_key_size (p : core) : Prop :=
  forall sk, length sk = 32%nat ->
  length (crypto_scalarmult_base p sk) = 32%nat.

Definition shared_key_size (p : core) : Prop :=
  forall pk sk, length pk = 32%nat -> length sk = 32%nat ->
  length (crypto_box_beforenm p pk sk) = 32%nat.

Definition key_agreement (p : core) : Prop :=
  forall a b, length a = 32%nat -> length b = 32%nat ->
  crypto_box_beforenm p (crypto_scalarmult_base p b) a =
  crypto_box_beforenm p (crypto_scalarmult_base p a) b.

Definition box_opens (p : core) : Prop :=
  forall m n k, length n = 24%nat -> length k = 32%nat ->
  crypto_secretbox_open p (crypto_secretbox p m n k) n k = Some m.

Definition box_overhead (p : core) : Prop :=
  forall m n k, length n = 24%nat -> length k = 32%nat ->
  length (crypto_secretbox p m n k) = (16 + length m)%nat.

End nacl.

(** ** ./aes-gcm *)

Module AesGCM.

(** The object [AesGCM.encrypt] returns. *)
Record sealed := mkSealed {
  ciphertext : jsstring;
  iv : jsstring;
  tag : jsstring
}.

(** The two static methods of the class, as [crypto.ts] sees them. *)
Record module := mkModule {
  encrypt : jsstring -> jsstring -> M sealed;
  decrypt : jsstring -> jsstring -> jsstring -> jsstring -> M jsstring
}.

End AesGCM.

(** ** crypto.ts *)

Record KeyPair := mkKeyPair { publicKey : jsstring; privateKey : jsstring }.

Record AsymmetricCiphertext := mkAsymmetricCiphertext {
  ciphertext : jsstring;
  nonce : jsstring
}.

Section Crypto.
Variable prim : nacl.core.
Variable AesGCM : AesGCM.module.

Definition generateKeyPair : M KeyPair := fun g =>
  let (pair, g') := nacl.box_keyPair prim g in
  (Ok {| publicKey := util.encodeBase64 (nacl.publicKey pair);
         privateKey := util.encodeBase64 (nacl.secretKey pair) |}, g').

Definition encryptAsymmetric (plaintext publicKey privateKey : jsstring)
  : M AsymmetricCiphertext := fun g =>
  let (nonce_bytes, g') := nacl.randomBytes 24 g in
  (let* msg := util.decodeUTF8 plaintext in
   let* pk := util.decodeBase64 publicKey in
   let* sk := util.decodeBase64 privateKey in
   let* boxed := nacl.box prim msg nonce_bytes pk sk in
   Ok {| ciphertext := util.encodeBase64 boxed;
         nonce := util.encodeBase64 nonce_bytes |}, g').

Definition decryptAsymmetric (ciphertext nonce publicKey privateKey : jsstring)
  : M jsstring := fun g =>
  (let* c := util.decodeBase64 ciphertext in
   let* n := util.decodeBase64 nonce in
   let* pk := util.decodeBase64 publicKey in
   let* sk := util.decodeBase64 privateKey in
   let* plaintext := nacl.box_open prim c n pk sk in
   util.encodeUTF8 plaintext, g).

Definition encryptSymmetric (plaintext key : jsstring) : M AesGCM.sealed :=
  fun g =>
  match AesGCM.encrypt AesGCM plaintext key g with
  | (Ok obj, g') =>
      (Ok {| AesGCM.ciphertext := AesGCM.ciphertext obj;
             AesGCM.iv := AesGCM.iv obj;
             AesGCM.tag := AesGCM.tag obj |}, g')
  | (Throw e, g') => (Throw e, g')
  end.

Definition decryptSymmetric (ciphertext iv tag key : jsstring) : M jsstring :=
  fun g => AesGCM.decrypt AesGCM ciphertext iv tag key g.

End Crypto.

(** A string that is the UTF-16 form of Unicode text: code units in range
    and every surrogate part of a high/low pair. *)
Fixpoint paired (s : jsstring) : bool :=
  match s with
  | [] => true
  | c :: rest =>
      if util.is_low_surrogate c then false
      else if util.is_high_surrogate c then
        match rest with
        | [] => false
        | k :: rest' => util.is_low_surrogate k && paired rest'
        end
      else paired rest
  end.

Definition utf8_text (s : jsstring) : Prop := js_wf s /\ paired s = true.

(** ** The symmetric cipher, after the specification *)

Module SymmetricCipher.

(** Modelled from the spec: the AEAD primitive ([aead_seal], [aead_open])
    that section 1 treats as a trusted library, with the cipher's key, IV and
    tag sizes, and the text encoding of the three components, which section 6
    leaves implementation-defined but consistent. The module ./aes-gcm that
    provides them is absent from the sources. *)
Record aead := mkAead {
  key_size : nat;
  iv_size : nat;
  tag_size : nat;
  aead_seal : bytes -> bytes -> bytes -> bytes * bytes;
  aead_open : bytes -> bytes -> bytes -> bytes -> option bytes;
  encode_component : bytes -> jsstring;
  decode_component : jsstring -> result bytes
}.

(** Modelled from the spec: the error taxonomy of section 7. *)
Definition EncodingError : js_error := mkError "EncodingError" "".
Definition KeyFormatError : js_error := mkError "KeyFormatError" "".
Definition AuthenticationError : js_error := mkError "AuthenticationError" "".

(** Modelled from the spec: [0-9a-fA-F], the Codec's hexadecimal digits
    (section 4.1). *)
Definition hex_digit (c : Z) : option Z :=
  if (48 <=? c) && (c <=? 57) then Some (c - 48)
  else if (97 <=? c) && (c <=? 102) then Some (c - 97 + 10)
  else if (65 <=? c) && (c <=? 70) then Some (c - 65 + 10)
  else None.

(** Modelled from the spec: the Codec's hexadecimal [decode] (section 4.1),
    two digits per byte. *)
Fixpoint decodeHex (s : jsstring) : option bytes :=
  match s with
  | [] => Some []
  | h :: l :: rest =>
      match hex_digit h, hex_digit l, decodeHex rest with
      | Some vh, Some vl, Some tl => Some (mkbyte (vh * 16 + vl) :: tl)
      | _, _, _ => None
      end
  | _ => None
  end.

(** Modelled from the spec: step 1 of both operations of section 4.4, the
    key decoded from hex and checked against the cipher's key size. *)
Definition decode_key (a : aead) (key : jsstring) : result bytes :=
  match decodeHex key with
  | Some k =>
      if (length k =? key_size a)%nat then Ok k else Throw KeyFormatError
  | None => Throw KeyFormatError
  end.

(** Modelled from the spec: a failure of the Codec surfaces as the
    taxonomy's error [e] (section 7). *)
Definition or_throw {A} (e : js_error) (r : result A) : result A :=
  match r with
  | Ok a => Ok a
  | Throw _ => Throw e
  end.

(** Modelled from the spec: [encrypt] of section 4.4 (decode the key, draw a
    fresh IV, seal the UTF-8 bytes, return the three components). The
    function itself lives in ./aes-gcm, absent from the sources. *)
Definition encrypt (a : aead) (plaintext key : jsstring) : M AesGCM.sealed :=
  fun g =>
  match decode_key a key with
  | Throw e => (Throw e, g)
  | Ok k =>
      let (iv_bytes, g') := nacl.randomBytes (iv_size a) g in
      (let* pt := or_throw EncodingError (util.decodeUTF8 plaintext) in
       let (ct, tg) := aead_seal a k iv_bytes pt in
       Ok {| AesGCM.ciphertext := encode_component a ct;
             AesGCM.iv := encode_component a iv_bytes;
             AesGCM.tag := encode_component a tg |}, g')
  end.

(** Modelled from the spec: [decrypt] of section 4.4 (decode all inputs and
    check their lengths, verify the tag, decode the recovered bytes as
    UTF-8). The function itself lives in ./aes-gcm, absent from the
    sources. *)
Definition decrypt (a : aead) (ciphertext iv tag key : jsstring)
  : M jsstring := fun g =>
  (let* k := decode_key a key in
   let* ct := or_throw EncodingError (decode_component a ciphertext) in
   let* iv_bytes := or_throw EncodingError (decode_component a iv) in
   let* tg := or_throw EncodingError (decode_component a tag) in
   if negb (length iv_bytes =? iv_size a)%nat then Throw KeyFormatError
   else if negb (length tg =? tag_size a)%nat then Throw KeyFormatError
   else
     match aead_open a k iv_bytes ct tg with
     | None => Throw AuthenticationError
     | Some pt => or_throw EncodingError (util.encodeUTF8 (Some pt))
     end, g).

Definition AesGCM (a : aead) : AesGCM.module :=
  AesGCM.mkModule (encrypt a) (decrypt a).

(** Modelled from the spec: what the trusted AEAD primitive provides (a
    sealed message opens under the same key and IV, the tag has the
    cipher's size) and that the component encoding is lossless. *)
Definition aead_opens (a : aead) : Prop :=
  forall k i pt, length k = key_size a -> length i = iv_size a ->
  aead_open a k i (fst (aead_seal a k i pt)) (snd (aead_seal a k i pt))
  = Some pt.

Definition aead_tag_size (a : aead) : Prop :=
  forall k i pt, length k = key_size a -> length i = iv_size a ->
  length (snd (aead_seal a k i pt)) = tag_size a.

Definition component_codec (a : aead) : Prop :=
  forall b, decode_component a (encode_component a b) = Ok b.

(** Modelled from the spec: the cipher is a counter mode (section 1) whose
    tag is returned apart from the ciphertext (section 4.4), so the
    ciphertext is as long as the plaintext. *)
Definition aead_keeps_length (a : aead) : Prop :=
  forall k i pt, length (fst (aead_seal a k i pt)) = length pt.

End SymmetricCipher.

(** ** A reference instance of the primitives

    A small stand-in that meets the contract the wrappers rely on (key
    agreement is symmetric, a sealed box opens to its message, sizes are
    as documented). It is used to run the operations on concrete inputs;
    it is not a cipher. *)

Module Ref.

Definition byte_xor (a b : byte) : byte :=
  mkbyte (Z.lxor (byte_val a) (byte_val b)).

Fixpoint xor_bytes (a b : bytes) : bytes :=
  match a, b with
  | x :: a', y :: b' => byte_xor x y :: xor_bytes a' b'
  | _, _ => []
  end.

Fixpoint bytes_eqb (a b : bytes) : bool :=
  match a, b with
  | [], [] => true
  | x :: a', y :: b' => Byte.eqb x y && bytes_eqb a' b'
  | _, _ => false
  end.

Definition mac (n k : bytes) : bytes := firstn 16 (xor_bytes k n).

Definition seal (msg n k : bytes) : bytes := mac n k ++ msg.

Definition open (box n k : bytes) : option bytes :=
  if bytes_eqb (firstn 16 box) (mac n k) then Some (skipn 16 box) else None.

Definition prim : nacl.core :=
  nacl.mkCore (fun sk => sk) xor_bytes seal open.

Definition aead : SymmetricCipher.aead :=
  SymmetricCipher.mkAead 32 12 16
    (fun k iv pt => (pt, mac (iv ++ iv) k))
    (fun k iv ct tg =>
       if bytes_eqb tg (mac (iv ++ iv) k) then Some ct else None)
    util.encodeBase64 util.decodeBase64.

(** A generator that yields 0, 1, 2, ... (mod 256). *)
Definition counting : rng := mkRng (fun i => mkbyte (Z.of_nat i)) 0.

End Ref.

(** Sample key pairs and inputs, computed with the reference instance. *)
Definition dummy_pair : KeyPair := mkKeyPair [] [].

Definition alice : KeyPair :=
  Eval vm_compute in
  match fst (generateKeyPair Ref.prim Ref.counting) with
  | Ok k => k
  | Throw _ => dummy_pair
  end.

Definition bob : KeyPair :=
  Eval vm_compute in
  match fst (generateKeyPair Ref.prim (mkRng (entropy Ref.counting) 32)) with
  | Ok k => k
  | Throw _ => dummy_pair
  end.

(** 24 zero bytes, base64-encoded. *)
Definition zero_nonce : jsstring :=
  Eval vm_compute in util.encodeBase64 (repeat x00 24).

(** A hex key of 32 bytes. *)
Definition sample_key : jsstring :=
  js "000102030405060708090a0b0c0d0e0f101112131415161718191a1b1c1d1e1f".

(** ** Vocabulary of the statements *)

(** The first half of [decryptAsymmetric]: the four arguments decoded and
    handed to [nacl.box.open]. *)
Definition open_sealed_box (prim : nacl.core)
  (ciphertext nonce publicKey privateKey : jsstring)
  : result (option bytes) :=
  let* c := util.decodeBase64 ciphertext in
  let* n := util.decodeBase64 nonce in
  let* pk := util.decodeBase64 publicKey in
  let* sk := util.decodeBase64 privateKey in
  nacl.box_open prim c n pk sk.

(** The operation failed with an error of class [cls]. *)
Definition fails_with {A} (cls : string) (r : result A) : Prop :=
  exists e, r = Throw e /\ name e = cls.




(** A code point that UTF-8 can carry. *)
Definition scalar (v : Z) : Prop :=
  0 <= v <= 1114111 /\ ~ (55296 <= v <= 57343).

(** The byte array is the UTF-8 form of some text. *)
Definition valid_utf8 (m : bytes) : Prop :=
  exists s, utf8_text s /\ util.decodeUTF8 s = Ok m.

(** A string that [validateBase64] accepts and that decodes to [n] bytes. *)
Definition base64_of_length (n : nat) (s : jsstring) : Prop :=
  util.validateBase64 s = Ok tt /\
  exists b, util.decodeBase64 s = Ok b /\ length b = n.

(** The engine's error for reading a property of [null]. *)
Definition null_length : js_error :=
  TypeError "Cannot read properties of null (reading 'length')".

(** The bytes the generator hands out next. *)
Definition next_bytes (n : nat) (g : rng) : bytes :=
  map (entropy g) (seq (consumed g) n).

(** The generator after [n] more bytes were handed out. *)
Definition advance (n : nat) (g : rng) : rng :=
  mkRng (entropy g) (consumed g + n).

(** A box that opens under Alice's public and Bob's private key to the
    single byte 0xFF, base64-encoded. *)
Definition forged : jsstring :=
  Eval vm_compute in
  util.encodeBase64
    (Ref.seal [xff] (repeat x00 24)
       (Ref.xor_bytes (util.buffer_from_base64 (publicKey alice))
                      (util.buffer_from_base64 (privateKey bob)))).

(** Well-formed base64 (RFC 4648): groups of four characters of the
    alphabet, where only the last group may end in one or two ['=']. *)
Fixpoint rfc4648 (s : jsstring) : bool :=
  match s with
  | [] => true
  | a :: b :: c :: d :: rest =>
      util.is_alpha a && util.is_alpha b &&
      match rest with
      | [] =>
          (util.is_alpha c && (util.is_alpha d || (d =? util.pad)))
          || ((c =? util.pad) && (d =? util.pad))
      | _ => util.is_alpha c && util.is_alpha d && rfc4648 rest
      end
  | _ => false
  end.



(** ** Counting nonces *)

(** Every value an array element can take. *)
Definition all_bytes : list byte :=
  map (fun i => mkbyte (Z.of_nat i)) (seq 0 256).

(** Every array of [n] bytes. *)
Fixpoint words (n : nat) : list bytes :=
  match n with
  | O => [[]]
  | S n' => flat_map (fun b => map (cons b) (words n')) all_bytes
  end.

(** A generator that hands out the given bytes, then zeros. *)
Definition replay (bs : bytes) : rng := mkRng (fun i => nth i bs x00) 0.

(** What [encryptAsymmetric] returned in the sample run. *)
Definition hello_box : AsymmetricCiphertext :=
  Eval vm_compute in
  match fst (encryptAsymmetric Ref.prim (js "hello") (publicKey bob)
               (privateKey alice) Ref.counting) with
  | Ok c => c
  | Throw _ => mkAsymmetricCiphertext [] []
  end.

(** What the next call of [encryptAsymmetric] on the same arguments
    returned in the sample run. *)
Definition hello_box2 : AsymmetricCiphertext :=
  Eval vm_compute in
  match fst (encryptAsymmetric Ref.prim (js "hello") (publicKey bob)
               (privateKey alice) (advance 24 Ref.counting)) with
  | Ok c => c
  | Throw _ => mkAsymmetricCiphertext [] []
  end.

(** * Properties *)

(** ** Bytes *)

Lemma byte_val_range b : 0 <= byte_val b < 256.
Proof.
  unfold byte_val. pose proof (Byte.to_N_bounded b). lia.
Qed.

Lemma mkbyte_byte_val b : mkbyte (byte_val b) = b.
Proof.
  unfold mkbyte. pose proof (byte_val_range b).
  rewrite Z.mod_small by lia. unfold byte_val.
  rewrite N2Z.id, Byte.of_to_N. reflexivity.
Qed.

Lemma byte_val_mkbyte z : 0 <= z < 256 -> byte_val (mkbyte z) = z.
Proof.
  intros Hz. unfold mkbyte, byte_val. rewrite Z.mod_small by lia.
  destruct (Byte.of_N (Z.to_N z)) as [b|] eqn:E.
  - apply Byte.to_of_N in E. lia.
  - apply Byte.of_N_None_iff in E. lia.
Qed.

Ltac zdiv := Z.to_euclidean_division_equations; lia.

Lemma unbase64_b64char v : 0 <= v < 64 -> util.unbase64 (util.b64char v) = Some v.
Proof.
  intros Hv. unfold util.unbase64, util.b64char.
  repeat match goal with
  | |- context [?a <? ?b] => destruct (Z.ltb_spec a b)
  | |- context [?a <=? ?b] => destruct (Z.leb_spec a b)
  | |- context [?a =? ?b] => destruct (Z.eqb_spec a b)
  | _ => progress cbn [andb]
  end; try lia; f_equal; lia.
Qed.

Lemma list_ind3 {A} (P : list A -> Prop) :
  P [] -> (forall a, P [a]) -> (forall a b, P [a; b]) ->
  (forall a b c l, P l -> P (a :: b :: c :: l)) ->
  forall l, P l.
Proof.
  intros H0 H1 H2 H3 l.
  enough (P l /\ (forall a, P (a :: l)) /\ (forall a b, P (a :: b :: l)))
    by tauto.
  induction l as [|x l (IH0 & IH1 & IH2)]; auto.
Qed.

Lemma is_alpha_b64char v : 0 <= v < 64 -> util.is_alpha (util.b64char v) = true.
Proof. intros; unfold util.is_alpha; now rewrite unbase64_b64char. Qed.

Lemma is_alpha_or_pad_b64char v :
  0 <= v < 64 -> util.is_alpha_or_pad (util.b64char v) = true.
Proof.
  intros; unfold util.is_alpha_or_pad; now rewrite is_alpha_b64char.
Qed.

Lemma mkbyte_eq z b : z = byte_val b -> mkbyte z = b.
Proof. intros ->; apply mkbyte_byte_val. Qed.

Ltac byte_ranges :=
  repeat match goal with
  | x : byte |- _ =>
      lazymatch goal with
      | _ : 0 <= byte_val x < 256 |- _ => fail
      | _ => pose proof (byte_val_range x)
      end
  end.

Lemma base64_regex_encodeBase64 arr :
  util.base64_regex (util.encodeBase64 arr) = true.
Proof.
  induction arr as [|a|a b|a b c l IH] using list_ind3;
    try reflexivity;
    cbn [util.encodeBase64 util.base64_regex];
    byte_ranges;
    rewrite ?is_alpha_b64char, ?is_alpha_or_pad_b64char by zdiv;
    auto.
Qed.

Lemma buffer_from_base64_encodeBase64 arr :
  util.buffer_from_base64 (util.encodeBase64 arr) = arr.
Proof.
  induction arr as [|a|a b|a b c l IH] using list_ind3;
    try reflexivity;
    cbn [util.encodeBase64 util.buffer_from_base64];
    byte_ranges;
    rewrite ?unbase64_b64char by zdiv;
    cbn [util.unbase64 util.pad]; cbv beta iota;
    rewrite ?IH;
    repeat (f_equal; try (apply mkbyte_eq; zdiv)).
Qed.

Ltac ztest :=
  repeat match goal with
  | |- context [?a <? ?b] =>
      first [ rewrite (proj2 (Z.ltb_lt a b)) by zdiv
            | rewrite (proj2 (Z.ltb_ge a b)) by zdiv ]
  | |- context [?a <=? ?b] =>
      first [ rewrite (proj2 (Z.leb_le a b)) by zdiv
            | rewrite (proj2 (Z.leb_gt a b)) by zdiv ]
  end.

Lemma utf8_to_string_octets v tl :
  scalar v ->
  util.utf8_to_string (util.utf8_octets v ++ tl) =
  let* t := util.utf8_to_string tl in Ok (util.code_units v ++ t).
Proof.
  intros [Hr Hs]. unfold util.utf8_octets.
  destruct (Z.ltb_spec v 128); [|destruct (Z.ltb_spec v 2048);
    [|destruct (Z.ltb_spec v 65536)]];
    cbn [app util.utf8_to_string]; cbv zeta;
    rewrite ?byte_val_mkbyte by zdiv;
    unfold util.is_continuation, util.code_units; ztest;
    cbn [andb negb].
  - reflexivity.
  - replace ((192 + v / 64 - 192) * 64 + (128 + v mod 64 - 128)) with v by zdiv.
    reflexivity.
  - replace ((224 + v / 4096 - 224) * 4096 + (128 + v / 64 mod 64 - 128) * 64
             + (128 + v mod 64 - 128)) with v by zdiv.
    assert (Hc : v < 55296 \/ 57343 < v) by lia.
    destruct Hc; ztest; reflexivity.
  - replace ((240 + v / 262144 - 240) * 262144
             + (128 + v / 4096 mod 64 - 128) * 4096
             + (128 + v / 64 mod 64 - 128) * 64
             + (128 + v mod 64 - 128)) with v by zdiv.
    reflexivity.
Qed.

Lemma surrogate_tests c :
  (util.is_low_surrogate c = true <-> 56320 <= c <= 57343) /\
  (util.is_high_surrogate c = true <-> 55296 <= c <= 56319).
Proof.
  unfold util.is_low_surrogate, util.is_high_surrogate.
  rewrite !andb_true_iff, !Z.leb_le. tauto.
Qed.

Lemma is_low_false c :
  util.is_low_surrogate c = false <-> ~ (56320 <= c <= 57343).
Proof.
  rewrite <- (proj1 (surrogate_tests c)).
  destruct (util.is_low_surrogate c); intuition congruence.
Qed.

Lemma is_high_false c :
  util.is_high_surrogate c = false <-> ~ (55296 <= c <= 56319).
Proof.
  rewrite <- (proj2 (surrogate_tests c)).
  destruct (util.is_high_surrogate c); intuition congruence.
Qed.

Lemma code_units_pair c k :
  55296 <= c <= 56319 -> 56320 <= k <= 57343 ->
  util.code_units ((c - 55296) * 1024 + (k - 56320) + 65536) = [c; k].
Proof.
  intros Hc Hk. unfold util.code_units. ztest.
  f_equal; [|f_equal]; zdiv.
Qed.

Lemma code_units_single c : c < 65536 -> util.code_units c = [c].
Proof. intros; unfold util.code_units; ztest; reflexivity. Qed.

Lemma utf8_round_trip s :
  utf8_text s ->
  exists b, util.decodeUTF8 s = Ok b /\ util.utf8_to_string b = Ok s.
Proof.
  unfold utf8_text, js_wf.
  enough (H : (Forall code_unit s -> paired s = true ->
               exists b, util.decodeUTF8 s = Ok b /\ util.utf8_to_string b = Ok s)
              /\ forall c, Forall code_unit (c :: s) -> paired (c :: s) = true ->
               exists b, util.decodeUTF8 (c :: s) = Ok b
                         /\ util.utf8_to_string b = Ok (c :: s))
    by (intros [? ?]; now apply H).
  induction s as [|x s [IH0 IH1]].
  - split; [intros; exists []; auto|].
    intros c Hwf Hp. inversion Hwf as [|? ? Hc _]; subst.
    cbn [paired util.decodeUTF8] in *.
    destruct (util.is_low_surrogate c) eqn:El; [discriminate|].
    destruct (util.is_high_surrogate c) eqn:Eh; [discriminate|].
    apply is_low_false in El. apply is_high_false in Eh.
    exists (util.utf8_octets c ++ []). split; [reflexivity|].
    rewrite utf8_to_string_octets by (unfold scalar, code_unit in *; lia).
    cbn. rewrite code_units_single by (unfold code_unit in *; lia). reflexivity.
  - split; [exact (IH1 x)|].
    intros c Hwf Hp. inversion Hwf as [|? ? Hc Hwf']; subst.
    cbn [paired util.decodeUTF8] in *.
    destruct (util.is_low_surrogate c) eqn:El; [discriminate|].
    destruct (util.is_high_surrogate c) eqn:Eh.
    + apply andb_true_iff in Hp as [Hx Hp].
      rewrite Hx. inversion Hwf' as [|? ? Hcx Hwf'']; subst.
      destruct (IH0 Hwf'' Hp) as (b & Hb & Hd).
      rewrite Hb. cbn [bind].
      apply surrogate_tests in Eh. apply surrogate_tests in Hx.
      eexists; split; [reflexivity|].
      rewrite utf8_to_string_octets by (unfold scalar; lia).
      rewrite Hd. cbn [bind]. now rewrite code_units_pair.
    + destruct (IH1 x Hwf' Hp) as (b & Hb & Hd).
      rewrite Hb. cbn [bind].
      apply is_low_false in El. apply is_high_false in Eh.
      eexists; split; [reflexivity|].
      rewrite utf8_to_string_octets by (unfold scalar, code_unit in *; lia).
      rewrite Hd. cbn [bind].
      rewrite code_units_single by (unfold code_unit in *; lia). reflexivity.
Qed.

Lemma bind_Ok_inv {A B} (r : result A) (k : A -> result B) y :
  bind r k = Ok y -> exists x, r = Ok x /\ k x = Ok y.
Proof. destruct r; cbn; [eauto | discriminate]. Qed.

Lemma decodeUTF8_code_units v t :
  scalar v ->
  util.decodeUTF8 (util.code_units v ++ t) =
  let* tl := util.decodeUTF8 t in Ok (util.utf8_octets v ++ tl).
Proof.
  intros [Hr Hs]. unfold util.code_units.
  destruct (Z.ltb_spec v 65536); cbn [app util.decodeUTF8].
  - rewrite (proj2 (is_low_false v)) by lia.
    rewrite (proj2 (is_high_false v)) by lia. reflexivity.
  - rewrite (proj2 (is_low_false _)) by zdiv.
    rewrite (proj2 (proj2 (surrogate_tests _))) by zdiv.
    rewrite (proj2 (proj1 (surrogate_tests _))) by zdiv.
    cbv zeta.
    replace ((55296 + (v - 65536) / 1024 - 55296) * 1024
             + (56320 + (v - 65536) mod 1024 - 56320) + 65536) with v by zdiv.
    reflexivity.
Qed.

Lemma utf8_text_code_units v t :
  scalar v -> utf8_text t -> utf8_text (util.code_units v ++ t).
Proof.
  intros [Hr Hs] [Hwf Hp]. unfold utf8_text, js_wf, util.code_units.
  destruct (Z.ltb_spec v 65536); cbn [app paired].
  - rewrite (proj2 (is_low_false v)) by lia.
    rewrite (proj2 (is_high_false v)) by lia.
    split; [constructor; [unfold code_unit; lia | assumption] | assumption].
  - rewrite (proj2 (is_low_false _)) by zdiv.
    rewrite (proj2 (proj2 (surrogate_tests _))) by zdiv.
    rewrite (proj2 (proj1 (surrogate_tests _))) by zdiv.
    split; [|assumption].
    repeat constructor; try assumption; unfold code_unit; zdiv.
Qed.

Ltac split_tests H :=
  repeat match type of H with
  | context [?a <? ?b] => destruct (Z.ltb_spec a b)
  | context [?a <=? ?b] => destruct (Z.leb_spec a b)
  end; cbn [andb negb] in H; try discriminate H; try (exfalso; lia).

Lemma utf8_to_string_sound b s :
  util.utf8_to_string b = Ok s -> util.decodeUTF8 s = Ok b /\ utf8_text s.
Proof.
  remember (length b) as n eqn:Hn.
  revert b s Hn. induction n as [n IH] using lt_wf_ind. intros b s Hn H.
  destruct b as [|b0 rest]; cbn [util.utf8_to_string] in H.
  { injection H as <-. split; [reflexivity | split; [constructor | reflexivity]]. }
  cbv zeta in H. pose proof (byte_val_range b0) as R0.
  destruct (Z.ltb_spec (byte_val b0) 128).
  { apply bind_Ok_inv in H as (t & Ht & Hs). injection Hs as <-.
    apply (IH (length rest) ltac:(subst n; cbn [length]; lia) rest _ eq_refl) in Ht as [Hd Ht].
    change (byte_val b0 :: t) with ([byte_val b0] ++ t).
    rewrite <- (code_units_single (byte_val b0)) by lia. split.
    - rewrite decodeUTF8_code_units by (unfold scalar; lia).
      rewrite Hd. cbn [bind]. unfold util.utf8_octets.
      rewrite (proj2 (Z.ltb_lt _ _)) by lia. cbn [app]. now rewrite mkbyte_byte_val.
    - apply utf8_text_code_units; [unfold scalar; lia | assumption]. }
  destruct (Z.ltb_spec (byte_val b0) 192); [discriminate|].
  destruct (Z.ltb_spec (byte_val b0) 224).
  { destruct rest as [|b1 rest1]; [discriminate|].
    pose proof (byte_val_range b1) as R1.
    unfold util.is_continuation in H. split_tests H.
    apply bind_Ok_inv in H as (t & Ht & Hs). injection Hs as <-.
    apply (IH (length rest1) ltac:(subst n; cbn [length]; lia) rest1 _ eq_refl) in Ht as [Hd Ht]. split.
    - rewrite decodeUTF8_code_units by (unfold scalar; lia).
      rewrite Hd. cbn [bind]. unfold util.utf8_octets. ztest.
      cbn [app]. repeat (f_equal; try (apply mkbyte_eq; zdiv)).
    - apply utf8_text_code_units; [unfold scalar; lia | assumption]. }
  destruct (Z.ltb_spec (byte_val b0) 240).
  { destruct rest as [|b1 [|b2 rest2]]; try discriminate.
    pose proof (byte_val_range b1) as R1. pose proof (byte_val_range b2) as R2.
    unfold util.is_continuation in H. split_tests H.
    all: apply bind_Ok_inv in H as (t & Ht & Hs); injection Hs as <-.
    all: apply (IH (length rest2) ltac:(subst n; cbn [length]; lia) rest2 _ eq_refl) in Ht as [Hd Ht]; split.
    all: try (apply utf8_text_code_units; [unfold scalar; lia | assumption]).
    all: rewrite decodeUTF8_code_units by (unfold scalar; lia).
    all: rewrite Hd; cbn [bind]; unfold util.utf8_octets; ztest.
    all: cbn [app]; repeat (f_equal; try (apply mkbyte_eq; zdiv)). }
  destruct (Z.ltb_spec (byte_val b0) 248); [|discriminate].
  destruct rest as [|b1 [|b2 [|b3 rest3]]]; try discriminate.
  pose proof (byte_val_range b1) as R1. pose proof (byte_val_range b2) as R2.
  pose proof (byte_val_range b3) as R3.
  unfold util.is_continuation in H. split_tests H.
  apply bind_Ok_inv in H as (t & Ht & Hs). injection Hs as <-.
  apply (IH (length rest3) ltac:(subst n; cbn [length]; lia) rest3 _ eq_refl) in Ht as [Hd Ht]. split.
  - rewrite decodeUTF8_code_units by (unfold scalar; lia).
    rewrite Hd. cbn [bind]. unfold util.utf8_octets. ztest.
    cbn [app]. repeat (f_equal; try (apply mkbyte_eq; zdiv)).
  - apply utf8_text_code_units; [unfold scalar; lia | assumption].
Qed.

(** ** Codec corollaries *)

Lemma decodeBase64_encodeBase64 arr :
  util.decodeBase64 (util.encodeBase64 arr) = Ok arr.
Proof.
  unfold util.decodeBase64, util.validateBase64.
  rewrite base64_regex_encodeBase64. cbn [bind].
  now rewrite buffer_from_base64_encodeBase64.
Qed.

Lemma encodeBase64_inj a b :
  util.encodeBase64 a = util.encodeBase64 b -> a = b.
Proof.
  intros H. rewrite <- (buffer_from_base64_encodeBase64 a), H.
  apply buffer_from_base64_encodeBase64.
Qed.

Lemma decodeBase64_valid s :
  util.base64_regex s = true ->
  util.decodeBase64 s = Ok (util.buffer_from_base64 s).
Proof.
  intros H. unfold util.decodeBase64, util.validateBase64. now rewrite H.
Qed.

Lemma decodeBase64_invalid s :
  util.base64_regex s = false ->
  util.decodeBase64 s = Throw (TypeError "invalid encoding").
Proof.
  intros H. unfold util.decodeBase64, util.validateBase64. now rewrite H.
Qed.

Lemma utf8_to_string_Throw b e :
  util.utf8_to_string b = Throw e -> e = util.uri_malformed.
Proof.
  remember (length b) as n eqn:Hn.
  revert b Hn. induction n as [n IH] using lt_wf_ind. intros b Hn H.
  assert (Hb : forall (r : bytes) (f : jsstring -> result jsstring),
             (length r < n)%nat ->
             bind (util.utf8_to_string r) f = Throw e ->
             (forall t, f t <> Throw e) -> e = util.uri_malformed).
  { intros r f Hr Hbind Hf.
    destruct (util.utf8_to_string r) as [t|e'] eqn:E; cbn [bind] in Hbind.
    - now apply Hf in Hbind.
    - injection Hbind as ->. eapply IH; [exact Hr | reflexivity | exact E]. }
  destruct b as [|b0 rest]; cbn [util.utf8_to_string] in H; [discriminate|].
  cbv zeta in H. subst n. cbn [length] in Hb.
  repeat match type of H with
  | (if ?c then _ else _) = _ => destruct c
  | match ?l with [] => _ | _ :: _ => _ end = _ => destruct l
  | Throw _ = Throw _ => injection H as <-; reflexivity
  | bind _ _ = _ => eapply Hb; [|exact H|discriminate]; cbn [length]; lia
  end.
Qed.

Lemma utf8_to_string_invalid m :
  ~ valid_utf8 m -> util.utf8_to_string m = Throw util.uri_malformed.
Proof.
  intros Hm. destruct (util.utf8_to_string m) as [s|e] eqn:E.
  - exfalso. apply Hm. exists s. apply utf8_to_string_sound in E. tauto.
  - apply utf8_to_string_Throw in E. now subst.
Qed.


(** ** The wrappers of tweetnacl *)

Lemma randomBytes_length n g : length (fst (nacl.randomBytes n g)) = n.
Proof. cbn. now rewrite length_map, length_seq. Qed.

Lemma randomBytes_state n g :
  snd (nacl.randomBytes n g) = mkRng (entropy g) (consumed g + n).
Proof. reflexivity. Qed.

Lemma checkBoxLengths_Ok pk sk :
  length pk = 32%nat -> length sk = 32%nat -> nacl.checkBoxLengths pk sk = Ok tt.
Proof. intros Hp Hs. unfold nacl.checkBoxLengths. now rewrite Hp, Hs. Qed.

Lemma checkLengths_Ok k n :
  length k = 32%nat -> length n = 24%nat -> nacl.checkLengths k n = Ok tt.
Proof. intros Hk Hn. unfold nacl.checkLengths. now rewrite Hk, Hn. Qed.

Lemma box_before_Ok prim pk sk :
  length pk = 32%nat -> length sk = 32%nat ->
  nacl.box_before prim pk sk = Ok (nacl.crypto_box_beforenm prim pk sk).
Proof.
  intros Hp Hs. unfold nacl.box_before. now rewrite checkBoxLengths_Ok.
Qed.

Lemma box_Ok prim m n pk sk :
  nacl.shared_key_size prim ->
  length n = 24%nat -> length pk = 32%nat -> length sk = 32%nat ->
  nacl.box prim m n pk sk =
  Ok (nacl.crypto_secretbox prim m n (nacl.crypto_box_beforenm prim pk sk)).
Proof.
  intros Hk Hn Hp Hs. unfold nacl.box, nacl.secretbox.
  rewrite box_before_Ok by assumption. cbn [bind].
  now rewrite checkLengths_Ok by auto.
Qed.

Lemma box_open_Ok prim c n pk sk :
  nacl.shared_key_size prim ->
  length n = 24%nat -> length pk = 32%nat -> length sk = 32%nat ->
  nacl.box_open prim c n pk sk =
  Ok (if (length c <? 16)%nat then None
      else nacl.crypto_secretbox_open prim c n
             (nacl.crypto_box_beforenm prim pk sk)).
Proof.
  intros Hk Hn Hp Hs. unfold nacl.box_open, nacl.secretbox_open.
  rewrite box_before_Ok by assumption. cbn [bind].
  rewrite checkLengths_Ok by auto. cbn [bind].
  unfold nacl.crypto_secretbox_BOXZEROBYTES.
  now destruct (length c <? 16)%nat.
Qed.

(** ** The reference instance meets the contract *)

Lemma xor_bytes_length a b :
  length (Ref.xor_bytes a b) = Nat.min (length a) (length b).
Proof.
  revert b; induction a as [|x a IH]; intros [|y b]; cbn; auto.
Qed.

Lemma byte_xor_comm a b : Ref.byte_xor a b = Ref.byte_xor b a.
Proof. unfold Ref.byte_xor. now rewrite Z.lxor_comm. Qed.

Lemma xor_bytes_comm a b : Ref.xor_bytes a b = Ref.xor_bytes b a.
Proof.
  revert b; induction a as [|x a IH]; intros [|y b]; cbn; auto.
  now rewrite byte_xor_comm, IH.
Qed.

Lemma bytes_eqb_refl a : Ref.bytes_eqb a a = true.
Proof.
  induction a as [|x a IH]; cbn; auto.
  now rewrite (Byte.byte_dec_lb (eq_refl x)).
Qed.

Lemma mac_length n k :
  (16 <= length n)%nat -> (16 <= length k)%nat -> length (Ref.mac n k) = 16%nat.
Proof.
  intros Hn Hk. unfold Ref.mac. rewrite length_firstn, xor_bytes_length. lia.
Qed.

Lemma Ref_public_key_size : nacl.public_key_size Ref.prim.
Proof. intros sk H. exact H. Qed.

Lemma Ref_shared_key_size : nacl.shared_key_size Ref.prim.
Proof. intros pk sk Hp Hs. cbn. rewrite xor_bytes_length. lia. Qed.

Lemma Ref_key_agreement : nacl.key_agreement Ref.prim.
Proof. intros a b _ _. cbn. apply xor_bytes_comm. Qed.

Lemma Ref_box_opens : nacl.box_opens Ref.prim.
Proof.
  intros m n k Hn Hk.
  cbn [nacl.crypto_secretbox_open nacl.crypto_secretbox Ref.prim].
  unfold Ref.open, Ref.seal.
  assert (Hm : length (Ref.mac n k) = 16%nat) by (apply mac_length; lia).
  assert (Hf : firstn 16 (Ref.mac n k ++ m) = Ref.mac n k).
  { rewrite <- Hm.
    now rewrite firstn_app, Nat.sub_diag, firstn_all, firstn_O, app_nil_r. }
  assert (Hs : skipn 16 (Ref.mac n k ++ m) = m).
  { rewrite <- Hm.
    now rewrite skipn_app, Nat.sub_diag, skipn_all, skipn_O. }
  now rewrite Hf, Hs, bytes_eqb_refl.
Qed.

Lemma Ref_box_overhead : nacl.box_overhead Ref.prim.
Proof.
  intros m n k Hn Hk. cbn [nacl.crypto_secretbox Ref.prim]. unfold Ref.seal.
  rewrite length_app, mac_length by lia. reflexivity.
Qed.

Lemma Ref_aead_opens : SymmetricCipher.aead_opens Ref.aead.
Proof. intros k i pt _ _.
  cbn [SymmetricCipher.aead_open SymmetricCipher.aead_seal Ref.aead fst snd].
  now rewrite bytes_eqb_refl. Qed.

Lemma Ref_aead_tag_size : SymmetricCipher.aead_tag_size Ref.aead.
Proof.
  intros k i pt Hk Hi.
  cbn [SymmetricCipher.aead_seal SymmetricCipher.key_size SymmetricCipher.iv_size SymmetricCipher.tag_size Ref.aead fst snd] in *.
  apply mac_length; [|lia].
  rewrite length_app. lia.
Qed.

Lemma Ref_component_codec : SymmetricCipher.component_codec Ref.aead.
Proof. intros b. apply decodeBase64_encodeBase64. Qed.

(** ** crypto.ts: how the operations unfold *)

Lemma generateKeyPair_eq prim g :
  generateKeyPair prim g =
  (Ok {| publicKey := util.encodeBase64
                        (nacl.crypto_scalarmult_base prim
                           (fst (nacl.randomBytes 32 g)));
         privateKey := util.encodeBase64 (fst (nacl.randomBytes 32 g)) |},
   mkRng (entropy g) (consumed g + 32)).
Proof. reflexivity. Qed.

Lemma decryptAsymmetric_eq prim ct n pk sk g :
  decryptAsymmetric prim ct n pk sk g =
  (let* r := open_sealed_box prim ct n pk sk in util.encodeUTF8 r, g).
Proof.
  unfold decryptAsymmetric, open_sealed_box.
  destruct (util.decodeBase64 ct); cbn [bind]; [|reflexivity].
  destruct (util.decodeBase64 n); cbn [bind]; [|reflexivity].
  destruct (util.decodeBase64 pk); cbn [bind]; [|reflexivity].
  destruct (util.decodeBase64 sk); cbn [bind]; reflexivity.
Qed.

Lemma encryptAsymmetric_eq prim plaintext pk sk g :
  encryptAsymmetric prim plaintext pk sk g =
  (let* msg := util.decodeUTF8 plaintext in
   let* p := util.decodeBase64 pk in
   let* s := util.decodeBase64 sk in
   let* boxed := nacl.box prim msg (fst (nacl.randomBytes 24 g)) p s in
   Ok {| ciphertext := util.encodeBase64 boxed;
         nonce := util.encodeBase64 (fst (nacl.randomBytes 24 g)) |},
   mkRng (entropy g) (consumed g + 24)).
Proof. reflexivity. Qed.


(** ** Properties of the five operations *)

Section Asymmetric.
Variable prim : nacl.core.
Hypothesis Hpk : nacl.public_key_size prim.
Hypothesis Hk : nacl.shared_key_size prim.
Hypothesis Hdh : nacl.key_agreement prim.
Hypothesis Hopen : nacl.box_opens prim.
Hypothesis Hlen : nacl.box_overhead prim.

(** C1. A message encrypted from A to B with [encryptAsymmetric] is
    recovered exactly by [decryptAsymmetric] at B's side: for every UTF-8
    plaintext and every two key pairs produced by [generateKeyPair],
    encryption succeeds and decrypting its ciphertext and nonce with A's
    public key and B's private key returns the plaintext. *)
Theorem asymmetric_round_trip (P : jsstring) (gA gB g : rng) (A B : KeyPair) :
  utf8_text P ->
  fst (generateKeyPair prim gA) = Ok A ->
  fst (generateKeyPair prim gB) = Ok B ->
  exists c,
    fst (encryptAsymmetric prim P (publicKey B) (privateKey A) g) = Ok c /\
    forall g',
      fst (decryptAsymmetric prim (ciphertext c) (nonce c)
             (publicKey A) (privateKey B) g') = Ok P.
Proof.
  intros HP HA HB.
  rewrite generateKeyPair_eq in HA, HB.
  pose proof (randomBytes_length 32 gA) as HlA.
  pose proof (randomBytes_length 32 gB) as HlB.
  set (skA := fst (nacl.randomBytes 32 gA)) in *.
  set (skB := fst (nacl.randomBytes 32 gB)) in *.
  clearbody skA skB. unfold fst in HA, HB.
  injection HA as <-. injection HB as <-. cbn [publicKey privateKey].
  destruct (utf8_round_trip P HP) as (m & Hm & Hback).
  rewrite encryptAsymmetric_eq.
  pose proof (randomBytes_length 24 g) as Hn.
  set (n := fst (nacl.randomBytes 24 g)) in *. clearbody n.
  unfold fst at 1.
  rewrite Hm, !decodeBase64_encodeBase64. cbn [bind].
  rewrite box_Ok by auto. cbn [bind].
  eexists; split; [reflexivity|]. intros g'.
  cbn [ciphertext nonce].
  rewrite decryptAsymmetric_eq. unfold fst at 1. unfold open_sealed_box.
  rewrite !decodeBase64_encodeBase64. cbn [bind].
  rewrite box_open_Ok by auto. cbn [bind].
  rewrite Hlen by auto.
  replace (16 + length m <? 16)%nat with false
    by (symmetry; apply Nat.ltb_ge; lia).
  rewrite <- (Hdh skA skB) by assumption.
  rewrite Hopen by auto. exact Hback.
Qed.



End Asymmetric.

Section Failures.
Variable prim : nacl.core.

(** C3 (amended). When the four arguments decode and [nacl.box.open] does
    not authenticate the box (it returns [null]), [decryptAsymmetric]
    throws the engine's [TypeError] for reading [length] of [null]; it
    returns no plaintext and uses no entropy. *)
Theorem decryptAsymmetric_rejected (ct n pk sk : jsstring) (g : rng) :
  open_sealed_box prim ct n pk sk = Ok None ->
  decryptAsymmetric prim ct n pk sk g = (Throw null_length, g).
Proof.
  intros H. rewrite decryptAsymmetric_eq, H. reflexivity.
Qed.

(** C8 (amended). When the box opens to bytes that are not the UTF-8 form
    of any text, [decryptAsymmetric] throws [URIError: URI malformed]; it
    returns no string. *)
Theorem decryptAsymmetric_not_utf8 (ct n pk sk : jsstring) (g : rng) (m : bytes) :
  open_sealed_box prim ct n pk sk = Ok (Some m) ->
  ~ valid_utf8 m ->
  decryptAsymmetric prim ct n pk sk g = (Throw (URIError "URI malformed"), g).
Proof.
  intros H Hm. rewrite decryptAsymmetric_eq, H. cbn [bind util.encodeUTF8].
  now rewrite utf8_to_string_invalid.
Qed.

Hypothesis Hk : nacl.shared_key_size prim.





End Failures.

Section PassThrough.
Variable prim : nacl.core.
Variable A : AesGCM.module.

(** C10. [encryptSymmetric] returns exactly what [AesGCM.encrypt] returns
    (the three fields unchanged, its exception unchanged, the generator as
    it left it), and [decryptSymmetric] returns exactly what
    [AesGCM.decrypt] returns; the module adds no check, transformation or
    error mapping. *)
Theorem symmetric_pass_through :
  (forall P k g, encryptSymmetric A P k g = AesGCM.encrypt A P k g) /\
  (forall c i t k g,
     decryptSymmetric A c i t k g = AesGCM.decrypt A c i t k g).
Proof.
  split; [|reflexivity].
  intros P k g. unfold encryptSymmetric.
  destruct (AesGCM.encrypt A P k g) as [[[c i t]|e] g']; reflexivity.
Qed.

End PassThrough.

Section Successive.
Variable prim : nacl.core.
Variable a : SymmetricCipher.aead.
Hypothesis Hcodec : SymmetricCipher.component_codec a.

Lemma encode_component_inj (x y : bytes) :
  SymmetricCipher.encode_component a x = SymmetricCipher.encode_component a y ->
  x = y.
Proof.
  intros H. pose proof (Hcodec x) as Hx. rewrite H, Hcodec in Hx.
  now injection Hx.
Qed.

(** C7 (amended). Two successive calls of [encryptAsymmetric]
    (respectively [encryptSymmetric], over the cipher of the
    specification) on the same arguments whose draws differ return
    different [nonce] (respectively [iv]) fields. Their [ciphertext]
    fields are the texts of what the primitive sealed under the two
    nonces, and differ exactly when those differ; that is not so for every
    plaintext. *)
Theorem successive_encryptions :
  (forall P pk sk g g1 g2 c1 c2,
     encryptAsymmetric prim P pk sk g = (Ok c1, g1) ->
     encryptAsymmetric prim P pk sk g1 = (Ok c2, g2) ->
     next_bytes 24 g <> next_bytes 24 g1 ->
     nonce c1 <> nonce c2 /\
     exists msg p s b1 b2,
       util.decodeUTF8 P = Ok msg /\
       util.decodeBase64 pk = Ok p /\ util.decodeBase64 sk = Ok s /\
       nacl.box prim msg (next_bytes 24 g) p s = Ok b1 /\
       nacl.box prim msg (next_bytes 24 g1) p s = Ok b2 /\
       ciphertext c1 = util.encodeBase64 b1 /\
       ciphertext c2 = util.encodeBase64 b2 /\
       (ciphertext c1 = ciphertext c2 <-> b1 = b2)) /\
  (forall P K g g1 g2 c1 c2,
     encryptSymmetric (SymmetricCipher.AesGCM a) P K g = (Ok c1, g1) ->
     encryptSymmetric (SymmetricCipher.AesGCM a) P K g1 = (Ok c2, g2) ->
     next_bytes (SymmetricCipher.iv_size a) g
     <> next_bytes (SymmetricCipher.iv_size a) g1 ->
     AesGCM.iv c1 <> AesGCM.iv c2 /\
     exists k pt s1 s2,
       SymmetricCipher.decode_key a K = Ok k /\
       util.decodeUTF8 P = Ok pt /\
       s1 = fst (SymmetricCipher.aead_seal a k
                   (next_bytes (SymmetricCipher.iv_size a) g) pt) /\
       s2 = fst (SymmetricCipher.aead_seal a k
                   (next_bytes (SymmetricCipher.iv_size a) g1) pt) /\
       AesGCM.ciphertext c1 = SymmetricCipher.encode_component a s1 /\
       AesGCM.ciphertext c2 = SymmetricCipher.encode_component a s2 /\
       (AesGCM.ciphertext c1 = AesGCM.ciphertext c2 <-> s1 = s2)).
Proof.
  split.
  - intros P pk sk g g1 g2 c1 c2 H1 H2 Hd.
    rewrite encryptAsymmetric_eq in H1, H2.
    change (fst (nacl.randomBytes 24 g)) with (next_bytes 24 g) in H1.
    change (fst (nacl.randomBytes 24 g1)) with (next_bytes 24 g1) in H2.
    revert H1 H2 Hd.
    generalize (next_bytes 24 g) as n1, (next_bytes 24 g1) as n2.
    intros n1 n2 H1 H2 Hd.
    injection H1 as H1 _. injection H2 as H2 _.
    destruct (util.decodeUTF8 P) as [msg|]; [|discriminate].
    destruct (util.decodeBase64 pk) as [p|]; [|discriminate].
    destruct (util.decodeBase64 sk) as [s|]; [|discriminate].
    cbn [bind] in H1, H2.
    destruct (nacl.box prim msg n1 p s) as [b1|] eqn:E1; [|discriminate].
    destruct (nacl.box prim msg n2 p s) as [b2|] eqn:E2; [|discriminate].
    cbn [bind] in H1, H2. injection H1 as <-. injection H2 as <-.
    cbn [nonce ciphertext]. split.
    + intros E. apply encodeBase64_inj in E. contradiction.
    + exists msg, p, s, b1, b2. repeat (split; [first [reflexivity | assumption]|]).
      split; [apply encodeBase64_inj | now intros ->].
  - intros P K g g1 g2 c1 c2 H1 H2 Hd.
    unfold encryptSymmetric in H1, H2.
    cbn [AesGCM.encrypt SymmetricCipher.AesGCM] in H1, H2.
    unfold SymmetricCipher.encrypt in H1, H2.
    destruct (SymmetricCipher.decode_key a K) as [k|]; [|discriminate].
    unfold nacl.randomBytes in H1, H2.
    change (map (entropy g) (seq (consumed g) (SymmetricCipher.iv_size a)))
      with (next_bytes (SymmetricCipher.iv_size a) g) in H1.
    change (map (entropy g1) (seq (consumed g1) (SymmetricCipher.iv_size a)))
      with (next_bytes (SymmetricCipher.iv_size a) g1) in H2.
    revert H1 H2 Hd.
    generalize (next_bytes (SymmetricCipher.iv_size a) g) as n1,
               (next_bytes (SymmetricCipher.iv_size a) g1) as n2.
    intros n1 n2 H1 H2 Hd.
    destruct (util.decodeUTF8 P) as [pt|];
      cbn [SymmetricCipher.or_throw bind] in H1, H2; [|discriminate].
    destruct (SymmetricCipher.aead_seal a k n1 pt) as [ct1 tg1] eqn:E1.
    destruct (SymmetricCipher.aead_seal a k n2 pt) as [ct2 tg2] eqn:E2.
    injection H1 as <- _. injection H2 as <- _.
    cbn [AesGCM.iv AesGCM.ciphertext]. split.
    + intros E. apply encode_component_inj in E. contradiction.
    + exists k, pt, ct1, ct2. rewrite E1, E2. cbn [fst].
      repeat (split; [first [reflexivity | assumption]|]).
      split; [apply encode_component_inj | now intros ->].
Qed.

End Successive.

Section Symmetric.
Variable a : SymmetricCipher.aead.
Hypothesis Hopen : SymmetricCipher.aead_opens a.
Hypothesis Htag : SymmetricCipher.aead_tag_size a.
Hypothesis Hcodec : SymmetricCipher.component_codec a.

(** C2. With the symmetric cipher of the specification behind [AesGCM]:
    for every UTF-8 plaintext and every hex key of the cipher's key size,
    [encryptSymmetric] succeeds and [decryptSymmetric] applied to the
    three components it returned, with the same key, returns the
    plaintext. *)
Theorem symmetric_round_trip (P K : jsstring) (k : bytes) (g : rng) :
  utf8_text P ->
  SymmetricCipher.decodeHex K = Some k ->
  length k = SymmetricCipher.key_size a ->
  exists c g1,
    encryptSymmetric (SymmetricCipher.AesGCM a) P K g = (Ok c, g1) /\
    forall g',
      fst (decryptSymmetric (SymmetricCipher.AesGCM a)
             (AesGCM.ciphertext c) (AesGCM.iv c) (AesGCM.tag c) K g') = Ok P.
Proof.
  intros HP HK Hlen.
  destruct (utf8_round_trip P HP) as (m & Hm & Hback).
  assert (Hkey : SymmetricCipher.decode_key a K = Ok k).
  { unfold SymmetricCipher.decode_key. rewrite HK, Hlen.
    now rewrite Nat.eqb_refl. }
  unfold encryptSymmetric, decryptSymmetric.
  cbn [AesGCM.encrypt AesGCM.decrypt SymmetricCipher.AesGCM].
  unfold SymmetricCipher.encrypt, SymmetricCipher.decrypt.
  rewrite Hkey.
  pose proof (randomBytes_length (SymmetricCipher.iv_size a) g) as Hiv.
  destruct (nacl.randomBytes (SymmetricCipher.iv_size a) g) as [i g1].
  cbn [fst] in Hiv.
  rewrite Hm. cbn [SymmetricCipher.or_throw bind].
  pose proof (Hopen k i m Hlen Hiv) as Ho.
  pose proof (Htag k i m Hlen Hiv) as Ht.
  destruct (SymmetricCipher.aead_seal a k i m) as [ct tg].
  cbn [fst snd] in Ho, Ht.
  eexists; eexists; split; [reflexivity|]. intros g'.
  cbn [AesGCM.ciphertext AesGCM.iv AesGCM.tag fst bind].
  rewrite !Hcodec. cbn [SymmetricCipher.or_throw bind].
  rewrite Hiv, Ht, !Nat.eqb_refl. cbn [negb].
  rewrite Ho. cbn [util.encodeUTF8]. now rewrite Hback.
Qed.

End Symmetric.

(** ** The properties on concrete inputs *)

Lemma utf8_text_js (s : string) : utf8_text (js s).
Proof.
  unfold utf8_text, js_wf, js.
  induction s as [|a s [IHw IHp]]; cbn [list_ascii_of_string map].
  - split; [constructor | reflexivity].
  - pose proof (N_ascii_bounded a) as Ha.
    split.
    + constructor; [unfold code_unit; lia | exact IHw].
    + cbn [paired].
      rewrite (proj2 (is_low_false _)) by lia.
      rewrite (proj2 (is_high_false _)) by lia. exact IHp.
Qed.

Lemma utf8_to_string_Throw_invalid m e :
  util.utf8_to_string m = Throw e -> ~ valid_utf8 m.
Proof.
  intros H (s & Hs & Hd).
  destruct (utf8_round_trip s Hs) as (b & Hb & Hback).
  congruence.
Qed.

Lemma asymmetric_round_trip_witness :
  exists c,
    fst (encryptAsymmetric Ref.prim (js "hello")
           (publicKey bob) (privateKey alice) Ref.counting) = Ok c /\
    forall g',
      fst (decryptAsymmetric Ref.prim (ciphertext c) (nonce c)
             (publicKey alice) (privateKey bob) g') = Ok (js "hello").
Proof.
  apply (asymmetric_round_trip Ref.prim Ref_public_key_size
           Ref_shared_key_size Ref_key_agreement Ref_box_opens
           Ref_box_overhead (js "hello") Ref.counting
           (mkRng (entropy Ref.counting) 32) Ref.counting alice bob).
  - apply utf8_text_js.
  - reflexivity.
  - reflexivity.
Defined.

Lemma symmetric_round_trip_witness :
  exists c g1,
    encryptSymmetric (SymmetricCipher.AesGCM Ref.aead)
      (js "secret data") sample_key Ref.counting = (Ok c, g1) /\
    forall g',
      fst (decryptSymmetric (SymmetricCipher.AesGCM Ref.aead)
             (AesGCM.ciphertext c) (AesGCM.iv c) (AesGCM.tag c)
             sample_key g') = Ok (js "secret data").
Proof.
  eapply (symmetric_round_trip Ref.aead Ref_aead_opens Ref_aead_tag_size
            Ref_component_codec).
  - apply utf8_text_js.
  - vm_compute. reflexivity.
  - reflexivity.
Defined.

Lemma decryptAsymmetric_rejected_witness :
  decryptAsymmetric Ref.prim [] zero_nonce (publicKey alice) (privateKey bob)
    Ref.counting = (Throw null_length, Ref.counting).
Proof.
  apply (decryptAsymmetric_rejected Ref.prim). reflexivity.
Defined.

Lemma decryptAsymmetric_rejected_counterexample :
  open_sealed_box Ref.prim [] zero_nonce (publicKey alice) (privateKey bob)
  = Ok None /\
  fst (decryptAsymmetric Ref.prim [] zero_nonce (publicKey alice)
         (privateKey bob) Ref.counting) = Throw null_length /\
  ~ fails_with "AuthenticationError"
      (fst (decryptAsymmetric Ref.prim [] zero_nonce (publicKey alice)
              (privateKey bob) Ref.counting)).
Proof.
  split; [reflexivity|]. split; [reflexivity|].
  intros (e & He & Hn). vm_compute in He. injection He as <-.
  discriminate Hn.
Qed.




Lemma decryptAsymmetric_not_utf8_witness :
  decryptAsymmetric Ref.prim forged zero_nonce (publicKey alice)
    (privateKey bob) Ref.counting
  = (Throw (URIError "URI malformed"), Ref.counting).
Proof.
  apply (decryptAsymmetric_not_utf8 Ref.prim forged zero_nonce
           (publicKey alice) (privateKey bob) Ref.counting [xff]).
  - reflexivity.
  - apply (utf8_to_string_Throw_invalid [xff] util.uri_malformed).
    reflexivity.
Defined.

Lemma decryptAsymmetric_not_utf8_counterexample :
  open_sealed_box Ref.prim forged zero_nonce (publicKey alice)
    (privateKey bob) = Ok (Some [xff]) /\
  ~ valid_utf8 [xff] /\
  fst (decryptAsymmetric Ref.prim forged zero_nonce (publicKey alice)
         (privateKey bob) Ref.counting) = Throw (URIError "URI malformed") /\
  ~ fails_with "EncodingError"
      (fst (decryptAsymmetric Ref.prim forged zero_nonce (publicKey alice)
              (privateKey bob) Ref.counting)).
Proof.
  split; [reflexivity|]. split.
  { apply (utf8_to_string_Throw_invalid [xff] util.uri_malformed).
    reflexivity. }
  split; [reflexivity|].
  intros (e & He & Hn). vm_compute in He. injection He as <-.
  discriminate Hn.
Qed.

(** ** Further properties of crypto.ts *)

Lemma box_inv prim m n pk sk b :
  nacl.box prim m n pk sk = Ok b ->
  length pk = 32%nat /\ length sk = 32%nat /\ length n = 24%nat /\
  length (nacl.crypto_box_beforenm prim pk sk) = 32%nat /\
  b = nacl.crypto_secretbox prim m n (nacl.crypto_box_beforenm prim pk sk).
Proof.
  unfold nacl.box, nacl.box_before, nacl.checkBoxLengths, nacl.secretbox,
    nacl.checkLengths.
  unfold nacl.crypto_box_PUBLICKEYBYTES, nacl.crypto_box_SECRETKEYBYTES,
    nacl.crypto_secretbox_KEYBYTES, nacl.crypto_secretbox_NONCEBYTES.
  destruct (Nat.eqb_spec (length pk) 32); cbn [negb bind]; [|discriminate].
  destruct (Nat.eqb_spec (length sk) 32); cbn [negb bind]; [|discriminate].
  destruct (Nat.eqb_spec
              (length (nacl.crypto_box_beforenm prim pk sk)) 32);
    cbn [negb bind]; [|discriminate].
  destruct (Nat.eqb_spec (length n) 24); cbn [negb bind]; [|discriminate].
  intros H. injection H as <-. auto.
Qed.

Lemma decodeUTF8_unpaired s :
  paired s = false -> util.decodeUTF8 s = Throw util.uri_malformed.
Proof.
  enough (H : (paired s = false ->
               util.decodeUTF8 s = Throw util.uri_malformed) /\
              forall c, paired (c :: s) = false ->
               util.decodeUTF8 (c :: s) = Throw util.uri_malformed)
    by apply H.
  induction s as [|x s [IH0 IH1]].
  - split; [discriminate|]. intros c. cbn [paired util.decodeUTF8].
    destruct (util.is_low_surrogate c); [reflexivity|].
    destruct (util.is_high_surrogate c); [reflexivity|discriminate].
  - split; [exact (IH1 x)|]. intros c H.
    cbn [paired util.decodeUTF8] in *.
    destruct (util.is_low_surrogate c); [reflexivity|].
    destruct (util.is_high_surrogate c).
    + destruct (util.is_low_surrogate x); [|reflexivity].
      cbn [andb] in H. now rewrite (IH0 H).
    + now rewrite (IH1 x H).
Qed.

Lemma encodeBase64_length arr :
  length (util.encodeBase64 arr) = (4 * ((length arr + 2) / 3))%nat.
Proof.
  induction arr as [|a|a b|a b c l IH] using list_ind3; try reflexivity.
  cbn [util.encodeBase64 length]. rewrite IH.
  replace (S (S (S (length l))) + 2)%nat with (1 * 3 + (length l + 2))%nat
    by lia.
  rewrite Nat.div_add_l by lia. lia.
Qed.

Section Extras.
Variable prim : nacl.core.

(** [decryptAsymmetric] never returns a string that is not text: whatever
    it returns is well-formed UTF-16 whose UTF-8 form is exactly the bytes
    the box opened to. *)
Theorem decryptAsymmetric_returns_text (ct n pk sk s : jsstring) (g : rng) :
  fst (decryptAsymmetric prim ct n pk sk g) = Ok s ->
  utf8_text s /\
  exists m, open_sealed_box prim ct n pk sk = Ok (Some m) /\
            util.decodeUTF8 s = Ok m.
Proof.
  rewrite decryptAsymmetric_eq. unfold fst at 1.
  destruct (open_sealed_box prim ct n pk sk) as [[m|]|e]; cbn [bind];
    try discriminate.
  cbn [util.encodeUTF8]. intros H. apply utf8_to_string_sound in H.
  split; [tauto|]. exists m. tauto.
Qed.

(** The order in which [decryptAsymmetric] reports bad arguments: any
    argument that is not base64 gives [TypeError: invalid encoding], even
    when another argument has the wrong size; with four base64 arguments,
    a public key that is not 32 bytes gives [Error: bad public key size],
    and otherwise a private key that is not 32 bytes gives
    [Error: bad secret key size]. *)
Theorem decryptAsymmetric_error_order (ct n pk sk : jsstring) (g : rng) :
  (util.base64_regex ct && util.base64_regex n && util.base64_regex pk
   && util.base64_regex sk = false ->
   fst (decryptAsymmetric prim ct n pk sk g)
   = Throw (TypeError "invalid encoding")) /\
  (util.base64_regex ct && util.base64_regex n && util.base64_regex pk
   && util.base64_regex sk = true ->
   (length (util.buffer_from_base64 pk) <> 32%nat ->
    fst (decryptAsymmetric prim ct n pk sk g)
    = Throw (Error "bad public key size")) /\
   (length (util.buffer_from_base64 pk) = 32%nat ->
    length (util.buffer_from_base64 sk) <> 32%nat ->
    fst (decryptAsymmetric prim ct n pk sk g)
    = Throw (Error "bad secret key size"))).
Proof.
  rewrite decryptAsymmetric_eq. unfold fst. unfold open_sealed_box. split.
  - intros H.
    destruct (util.base64_regex ct) eqn:Rc;
      [rewrite (decodeBase64_valid ct Rc)
      |now rewrite (decodeBase64_invalid ct Rc)].
    destruct (util.base64_regex n) eqn:Rn;
      [rewrite (decodeBase64_valid n Rn)
      |now rewrite (decodeBase64_invalid n Rn)].
    destruct (util.base64_regex pk) eqn:Rp;
      [rewrite (decodeBase64_valid pk Rp)
      |now rewrite (decodeBase64_invalid pk Rp)].
    destruct (util.base64_regex sk) eqn:Rs;
      [discriminate|now rewrite (decodeBase64_invalid sk Rs)].
  - intros H. apply andb_true_iff in H as [H Rs].
    apply andb_true_iff in H as [H Rp]. apply andb_true_iff in H as [Rc Rn].
    rewrite (decodeBase64_valid ct Rc), (decodeBase64_valid n Rn),
      (decodeBase64_valid pk Rp), (decodeBase64_valid sk Rs).
    cbn [bind].
    unfold nacl.box_open, nacl.box_before, nacl.checkBoxLengths.
    unfold nacl.crypto_box_PUBLICKEYBYTES, nacl.crypto_box_SECRETKEYBYTES.
    split.
    + intros Hp. apply Nat.eqb_neq in Hp. now rewrite Hp.
    + intros Hp Hs. apply Nat.eqb_neq in Hs. rewrite Hp, Hs. reflexivity.
Qed.

(** The order in which [encryptAsymmetric] reports bad arguments: a
    plaintext with an unpaired surrogate gives [URIError: URI malformed]
    whatever the keys are; with a well-formed plaintext, a key that is not
    base64 gives [TypeError: invalid encoding] even when the other key has
    the wrong size. *)
Theorem encryptAsymmetric_error_order (P pk sk : jsstring) (g : rng) :
  (paired P = false ->
   fst (encryptAsymmetric prim P pk sk g) = Throw util.uri_malformed) /\
  (utf8_text P ->
   util.base64_regex pk && util.base64_regex sk = false ->
   fst (encryptAsymmetric prim P pk sk g)
   = Throw (TypeError "invalid encoding")).
Proof.
  rewrite encryptAsymmetric_eq. unfold fst at 1 3. split.
  - intros HP. now rewrite decodeUTF8_unpaired.
  - intros HP Hb. destruct (utf8_round_trip P HP) as (m & Hm & _).
    rewrite Hm. cbn [bind].
    destruct (util.base64_regex pk) eqn:Rp;
      [rewrite (decodeBase64_valid pk Rp)
      |now rewrite (decodeBase64_invalid pk Rp)].
    destruct (util.base64_regex sk) eqn:Rs;
      [discriminate|now rewrite (decodeBase64_invalid sk Rs)].
Qed.

Hypothesis Hk : nacl.shared_key_size prim.

(** A ciphertext shorter than the 16-byte authenticator is never opened:
    with a 24-byte nonce and 32-byte keys, [decryptAsymmetric] throws the
    [TypeError] of the [null] box whatever the keys are. *)
Theorem decryptAsymmetric_truncated (ct n pk sk : jsstring) (g : rng) :
  util.base64_regex ct = true ->
  (length (util.buffer_from_base64 ct) < 16)%nat ->
  base64_of_length 24 n -> base64_of_length 32 pk -> base64_of_length 32 sk ->
  decryptAsymmetric prim ct n pk sk g = (Throw null_length, g).
Proof.
  intros Hc Hlt (_ & nb & Hn & Hnl) (_ & pb & Hp & Hpl) (_ & sb & Hs & Hsl).
  rewrite decryptAsymmetric_eq. unfold open_sealed_box.
  rewrite (decodeBase64_valid ct Hc), Hn, Hp, Hs. cbn [bind].
  rewrite box_open_Ok by auto. cbn [bind].
  apply Nat.ltb_lt in Hlt. rewrite Hlt. reflexivity.
Qed.

Hypothesis Hlen : nacl.box_overhead prim.

(** With a well-formed plaintext and two keys of 32 bytes,
    [encryptAsymmetric] always returns; the ciphertext it returns decodes
    to 16 bytes more than the UTF-8 form of the plaintext, and the nonce
    field is 32 characters long. *)
Theorem encryptAsymmetric_succeeds (P pk sk : jsstring) (g : rng) :
  utf8_text P -> base64_of_length 32 pk -> base64_of_length 32 sk ->
  exists c msg boxed,
    fst (encryptAsymmetric prim P pk sk g) = Ok c /\
    util.decodeUTF8 P = Ok msg /\
    util.decodeBase64 (ciphertext c) = Ok boxed /\
    length boxed = (length msg + 16)%nat /\
    length (nonce c) = 32%nat.
Proof.
  intros HP (_ & pb & Hp & Hpl) (_ & sb & Hs & Hsl).
  destruct (utf8_round_trip P HP) as (m & Hm & _).
  rewrite encryptAsymmetric_eq. unfold fst at 1.
  pose proof (randomBytes_length 24 g) as Hn.
  set (n := fst (nacl.randomBytes 24 g)) in *. clearbody n.
  rewrite Hm, Hp, Hs. cbn [bind]. rewrite box_Ok by auto. cbn [bind].
  do 3 eexists. split; [reflexivity|]. split; [reflexivity|].
  cbn [ciphertext nonce]. split; [apply decodeBase64_encodeBase64|].
  split.
  - rewrite Hlen by auto. lia.
  - rewrite encodeBase64_length, Hn. reflexivity.
Qed.

Hypothesis Hopen : nacl.box_opens prim.

(** The sender can open its own box: decrypting what [encryptAsymmetric]
    returned with the very same public and private key arguments returns
    the plaintext, because the shared key depends only on the pair of
    keys. *)
Theorem sender_opens_own_box (P pk sk : jsstring) (g : rng)
  (c : AsymmetricCiphertext) :
  utf8_text P ->
  fst (encryptAsymmetric prim P pk sk g) = Ok c ->
  forall g',
    fst (decryptAsymmetric prim (ciphertext c) (nonce c) pk sk g') = Ok P.
Proof.
  intros HP H g'.
  destruct (utf8_round_trip P HP) as (m & Hm & Hback).
  rewrite encryptAsymmetric_eq in H. unfold fst at 1 in H.
  set (n := fst (nacl.randomBytes 24 g)) in *. clearbody n.
  rewrite Hm in H. cbn [bind] in H.
  destruct (util.decodeBase64 pk) as [pb|] eqn:Ep; [|discriminate].
  destruct (util.decodeBase64 sk) as [sb|] eqn:Es; [|discriminate].
  cbn [bind] in H.
  destruct (nacl.box prim m n pb sb) as [boxed|] eqn:Eb; [|discriminate].
  cbn [bind] in H. injection H as <-. cbn [ciphertext nonce].
  apply box_inv in Eb as (Lp & Ls & Ln & Lk & ->).
  rewrite decryptAsymmetric_eq. unfold fst at 1. unfold open_sealed_box.
  rewrite !decodeBase64_encodeBase64, Ep, Es. cbn [bind].
  rewrite box_open_Ok by auto. cbn [bind].
  rewrite Hlen by auto.
  replace (16 + length m <? 16)%nat with false
    by (symmetry; apply Nat.ltb_ge; lia).
  rewrite Hopen by auto. exact Hback.
Qed.

End Extras.

(** [generateKeyPair] takes exactly the next 32 bytes of the random
    source; the private key is their base64 text, the public key the
    base64 text of the point [crypto_scalarmult_base] derives from them,
    and the private key field is 44 characters long. *)
Theorem generateKeyPair_entropy (prim : nacl.core) (g : rng) :
  generateKeyPair prim g =
  (Ok {| publicKey := util.encodeBase64
                        (nacl.crypto_scalarmult_base prim (next_bytes 32 g));
         privateKey := util.encodeBase64 (next_bytes 32 g) |},
   advance 32 g) /\
  util.decodeBase64 (util.encodeBase64 (next_bytes 32 g))
  = Ok (next_bytes 32 g) /\
  length (util.encodeBase64 (next_bytes 32 g)) = 44%nat.
Proof.
  split; [reflexivity|]. split; [apply decodeBase64_encodeBase64|].
  rewrite encodeBase64_length. unfold next_bytes.
  rewrite length_map, length_seq. reflexivity.
Qed.

(** ** Counting nonces *)

Lemma In_all_bytes b : In b all_bytes.
Proof.
  unfold all_bytes. apply in_map_iff.
  pose proof (byte_val_range b) as Hb.
  exists (Z.to_nat (byte_val b)). split.
  - rewrite Z2Nat.id by lia. apply mkbyte_byte_val.
  - apply in_seq. lia.
Qed.

Lemma NoDup_all_bytes : NoDup all_bytes.
Proof.
  unfold all_bytes. apply NoDup_map_NoDup_ForallPairs; [|apply seq_NoDup].
  intros i j Hi Hj H. apply in_seq in Hi, Hj.
  apply (f_equal byte_val) in H.
  rewrite !byte_val_mkbyte in H by lia. lia.
Qed.

Lemma length_all_bytes : length all_bytes = 256%nat.
Proof. unfold all_bytes. now rewrite length_map, length_seq. Qed.

Lemma In_words n w : In w (words n) <-> length w = n.
Proof.
  revert w. induction n as [|n IH]; intros w; cbn [words].
  - split.
    + intros [<-|[]]. reflexivity.
    + destruct w; [now left | discriminate].
  - rewrite in_flat_map. split.
    + intros (b & _ & Hw). apply in_map_iff in Hw as (t & <- & Ht).
      apply IH in Ht. cbn [length]. now rewrite Ht.
    + destruct w as [|b t]; [discriminate|]. intros Hl.
      exists b. split; [apply In_all_bytes|].
      apply in_map. apply IH. cbn [length] in Hl. lia.
Qed.

Lemma NoDup_flat_map_cons (l : list byte) (ws : list bytes) :
  NoDup l -> NoDup ws -> NoDup (flat_map (fun b => map (cons b) ws) l).
Proof.
  intros Hl Hws. induction Hl as [|b l Hb Hl IH]; cbn [flat_map].
  - constructor.
  - apply NoDup_app.
    + apply NoDup_map_NoDup_ForallPairs; [|assumption].
      intros x y _ _ H. now injection H.
    + exact IH.
    + intros w Hw Hw'. apply in_map_iff in Hw as (t & <- & _).
      apply in_flat_map in Hw' as (b' & Hb' & Hw').
      apply in_map_iff in Hw' as (t' & E & _).
      injection E as -> _. contradiction.
Qed.

Lemma NoDup_words n : NoDup (words n).
Proof.
  induction n as [|n IH]; cbn [words].
  - constructor; [intros []|constructor].
  - apply NoDup_flat_map_cons; [apply NoDup_all_bytes | exact IH].
Qed.

Lemma length_words n : length (words n) = (256 ^ n)%nat.
Proof.
  induction n as [|n IH]; [reflexivity|].
  cbn [words].
  rewrite flat_map_constant_length with (c := length (words n)).
  - rewrite length_all_bytes, IH. now rewrite Nat.pow_succ_r'.
  - intros b _. apply length_map.
Qed.

(** Among more arguments than possible results, two share a result. *)
Lemma shared_image {A B} (eqB : forall x y : B, {x = y} + {x <> y})
  (f : A -> B) (l : list A) :
  NoDup l ->
  NoDup (map f l) \/
  exists x y, In x l /\ In y l /\ x <> y /\ f x = f y.
Proof.
  induction 1 as [|x l Hx Hl IH]; [left; constructor|].
  destruct IH as [IH|(a & b & Ha & Hb & Hab & E)].
  - destruct (in_dec eqB (f x) (map f l)) as [Hin|Hin].
    + right. apply in_map_iff in Hin as (y & E & Hy).
      exists x, y. repeat split; [now left | now right | | now symmetry].
      intros ->. contradiction.
    + left. cbn [map]. now constructor.
  - right. exists a, b. repeat split; auto; now right.
Qed.

Lemma pigeonhole_bytes (f : bytes -> bytes) (a b : nat) :
  (b < a)%nat ->
  (forall w, length w = a -> length (f w) = b) ->
  exists x y, length x = a /\ length y = a /\ x <> y /\ f x = f y.
Proof.
  intros Hab Hf.
  destruct (shared_image (list_eq_dec Byte.byte_eq_dec) f (words a)
              (NoDup_words a)) as [Hnd|(x & y & Hx & Hy & Hxy & E)].
  - exfalso.
    assert (Hincl : incl (map f (words a)) (words b)).
    { intros w Hw. apply in_map_iff in Hw as (v & <- & Hv).
      apply In_words. apply Hf. now apply In_words. }
    pose proof (NoDup_incl_length Hnd Hincl) as Hle.
    rewrite length_map, !length_words in Hle.
    pose proof (Nat.pow_lt_mono_r 256 b a ltac:(lia) Hab) as Hlt.
    apply (Nat.lt_irrefl (256 ^ b)).
    eapply Nat.lt_le_trans; [exact Hlt | exact Hle].
  - exists x, y. rewrite <- !In_words. auto.
Qed.

Lemma next_bytes_replay (n1 n2 : bytes) :
  next_bytes (length n1) (replay (n1 ++ n2)) = n1 /\
  next_bytes (length n2) (advance (length n1) (replay (n1 ++ n2))) = n2.
Proof.
  unfold next_bytes, replay, advance. cbn [entropy consumed Nat.add]. split.
  - apply (nth_ext _ _ x00 x00).
    + now rewrite length_map, length_seq.
    + intros i Hi. rewrite length_map, length_seq in Hi.
      rewrite (nth_indep _ _ (nth 0 (n1 ++ n2) x00))
        by (now rewrite length_map, length_seq).
      rewrite (map_nth (fun i => nth i (n1 ++ n2) x00)).
      rewrite seq_nth by assumption. cbn [Nat.add].
      now rewrite app_nth1.
  - apply (nth_ext _ _ x00 x00).
    + now rewrite length_map, length_seq.
    + intros i Hi. rewrite length_map, length_seq in Hi.
      rewrite (nth_indep _ _ (nth 0 (n1 ++ n2) x00))
        by (now rewrite length_map, length_seq).
      rewrite (map_nth (fun i => nth i (n1 ++ n2) x00)).
      rewrite seq_nth by assumption.
      rewrite app_nth2 by lia. f_equal. lia.
Qed.

Section Repeats.
Variable prim : nacl.core.
Hypothesis Hk : nacl.shared_key_size prim.
Hypothesis Hlen : nacl.box_overhead prim.

Lemma repeated_box (pk sk : jsstring) :
  base64_of_length 32 pk -> base64_of_length 32 sk ->
  exists g c1 g1 c2 g2,
    encryptAsymmetric prim [] pk sk g = (Ok c1, g1) /\
    encryptAsymmetric prim [] pk sk g1 = (Ok c2, g2) /\
    next_bytes 24 g <> next_bytes 24 g1 /\
    ciphertext c1 = ciphertext c2.
Proof.
  intros (_ & pb & Hp & Hpl) (_ & sb & Hs & Hsl).
  set (k := nacl.crypto_box_beforenm prim pb sb).
  assert (Hkl : length k = 32%nat) by (apply Hk; assumption).
  destruct (pigeonhole_bytes (fun n => nacl.crypto_secretbox prim [] n k)
              24 16 ltac:(lia))
    as (n1 & n2 & L1 & L2 & Hne & E).
  { intros w Hw. now rewrite Hlen. }
  destruct (next_bytes_replay n1 n2) as [R1 R2]. rewrite L1, L2 in *.
  assert (Henc : forall g n,
             next_bytes 24 g = n -> length n = 24%nat ->
             encryptAsymmetric prim [] pk sk g =
             (Ok {| ciphertext :=
                      util.encodeBase64 (nacl.crypto_secretbox prim [] n k);
                    nonce := util.encodeBase64 n |}, advance 24 g)).
  { intros g n Hn Ln. rewrite encryptAsymmetric_eq.
    change (fst (nacl.randomBytes 24 g)) with (next_bytes 24 g).
    rewrite Hn. cbn [util.decodeUTF8 bind]. rewrite Hp, Hs. cbn [bind].
    rewrite box_Ok by auto. reflexivity. }
  exists (replay (n1 ++ n2)). eexists.
  exists (advance 24 (replay (n1 ++ n2))). do 2 eexists.
  split; [apply (Henc _ n1 R1 L1)|].
  split; [apply (Henc _ n2 R2 L2)|].
  split; [now rewrite R1, R2|].
  cbn [ciphertext]. now rewrite E.
Qed.

(** Different nonces do not force different ciphertexts: for the empty
    plaintext and any two 32-byte keys there are two successive calls of
    [encryptAsymmetric] whose draws differ and whose [ciphertext] fields are
    equal, since a box of 16 bytes cannot tell all 24-byte nonces apart. *)
Theorem ciphertexts_can_repeat (pk sk : jsstring) :
  base64_of_length 32 pk -> base64_of_length 32 sk ->
  exists g c1 g1 c2 g2,
    encryptAsymmetric prim [] pk sk g = (Ok c1, g1) /\
    encryptAsymmetric prim [] pk sk g1 = (Ok c2, g2) /\
    next_bytes 24 g <> next_bytes 24 g1 /\
    ciphertext c1 = ciphertext c2.
Proof.
  exact (repeated_box pk sk).
Qed.

End Repeats.

(** ** The further properties on concrete inputs *)

Lemma alice_public_key : base64_of_length 32 (publicKey alice).
Proof.
  split; [reflexivity|].
  eexists; split; [vm_compute; reflexivity | reflexivity].
Qed.

Lemma alice_private_key : base64_of_length 32 (privateKey alice).
Proof.
  split; [reflexivity|].
  eexists; split; [vm_compute; reflexivity | reflexivity].
Qed.

Lemma bob_public_key : base64_of_length 32 (publicKey bob).
Proof.
  split; [reflexivity|].
  eexists; split; [vm_compute; reflexivity | reflexivity].
Qed.

Lemma bob_private_key : base64_of_length 32 (privateKey bob).
Proof.
  split; [reflexivity|].
  eexists; split; [vm_compute; reflexivity | reflexivity].
Qed.

Lemma zero_nonce_size : base64_of_length 24 zero_nonce.
Proof.
  split; [reflexivity|].
  eexists; split; [vm_compute; reflexivity | reflexivity].
Qed.

Lemma short_ciphertext :
  (length (util.buffer_from_base64 (js "AAAA")) < 16)%nat.
Proof. vm_compute. lia. Qed.

Lemma decryptAsymmetric_returns_text_witness :
  utf8_text (js "hello") /\
  exists m,
    open_sealed_box Ref.prim (ciphertext hello_box) (nonce hello_box)
      (publicKey alice) (privateKey bob) = Ok (Some m) /\
    util.decodeUTF8 (js "hello") = Ok m.
Proof.
  exact (decryptAsymmetric_returns_text Ref.prim (ciphertext hello_box)
           (nonce hello_box) (publicKey alice) (privateKey bob)
           (js "hello") Ref.counting eq_refl).
Defined.

Lemma decryptAsymmetric_truncated_witness :
  decryptAsymmetric Ref.prim (js "AAAA") zero_nonce (publicKey alice)
    (privateKey bob) Ref.counting = (Throw null_length, Ref.counting).
Proof.
  exact (decryptAsymmetric_truncated Ref.prim Ref_shared_key_size
           (js "AAAA") zero_nonce (publicKey alice) (privateKey bob)
           Ref.counting eq_refl short_ciphertext zero_nonce_size
           alice_public_key bob_private_key).
Defined.

Lemma encryptAsymmetric_succeeds_witness :
  exists c msg boxed,
    fst (encryptAsymmetric Ref.prim (js "hello") (publicKey bob)
           (privateKey alice) Ref.counting) = Ok c /\
    util.decodeUTF8 (js "hello") = Ok msg /\
    util.decodeBase64 (ciphertext c) = Ok boxed /\
    length boxed = (length msg + 16)%nat /\
    length (nonce c) = 32%nat.
Proof.
  exact (encryptAsymmetric_succeeds Ref.prim Ref_shared_key_size
           Ref_box_overhead (js "hello") (publicKey bob) (privateKey alice)
           Ref.counting (utf8_text_js "hello") bob_public_key
           alice_private_key).
Defined.

Lemma sender_opens_own_box_witness :
  fst (decryptAsymmetric Ref.prim (ciphertext hello_box) (nonce hello_box)
         (publicKey bob) (privateKey alice) Ref.counting) = Ok (js "hello").
Proof.
  exact (sender_opens_own_box Ref.prim Ref_shared_key_size Ref_box_overhead
           Ref_box_opens (js "hello") (publicKey bob) (privateKey alice)
           Ref.counting hello_box (utf8_text_js "hello") eq_refl
           Ref.counting).
Defined.

Lemma ciphertexts_can_repeat_witness :
  exists g c1 g1 c2 g2,
    encryptAsymmetric Ref.prim [] (publicKey bob) (privateKey alice) g
    = (Ok c1, g1) /\
    encryptAsymmetric Ref.prim [] (publicKey bob) (privateKey alice) g1
    = (Ok c2, g2) /\
    next_bytes 24 g <> next_bytes 24 g1 /\
    ciphertext c1 = ciphertext c2.
Proof.
  exact (ciphertexts_can_repeat Ref.prim Ref_shared_key_size
           Ref_box_overhead (publicKey bob) (privateKey alice)
           bob_public_key alice_private_key).
Defined.

(** ** Successive encryptions *)

Lemma rfc4648_encodeBase64 arr : rfc4648 (util.encodeBase64 arr) = true.
Proof.
  induction arr as [|x|x y|x y z l IH] using list_ind3;
    try reflexivity;
    cbn [util.encodeBase64 rfc4648];
    byte_ranges;
    rewrite ?is_alpha_b64char by zdiv; cbn [andb orb].
  - reflexivity.
  - now rewrite Z.eqb_refl, orb_true_r.
  - rewrite IH. now destruct (util.encodeBase64 l).
Qed.

Lemma Ref_aead_keeps_length : SymmetricCipher.aead_keeps_length Ref.aead.
Proof. intros k i pt. reflexivity. Qed.

(** Under a counter mode the ciphertext of the empty plaintext is empty,
    whatever the IV. *)
Lemma empty_plaintext_ciphertext (a : SymmetricCipher.aead) :
  SymmetricCipher.aead_keeps_length a ->
  forall K g g' c,
    encryptSymmetric (SymmetricCipher.AesGCM a) [] K g = (Ok c, g') ->
    AesGCM.ciphertext c = SymmetricCipher.encode_component a [].
Proof.
  intros Hl K g g' c H. unfold encryptSymmetric in H.
  cbn [AesGCM.encrypt SymmetricCipher.AesGCM] in H.
  unfold SymmetricCipher.encrypt in H.
  destruct (SymmetricCipher.decode_key a K) as [k|]; [|discriminate].
  destruct (nacl.randomBytes (SymmetricCipher.iv_size a) g) as [i g0].
  cbn [util.decodeUTF8 SymmetricCipher.or_throw bind] in H.
  pose proof (Hl k i []) as Hz.
  destruct (SymmetricCipher.aead_seal a k i []) as [ct tg].
  cbn [fst length] in Hz. apply length_zero_iff_nil in Hz. subst ct.
  injection H as <- _. reflexivity.
Qed.

Lemma sample_draws_differ :
  next_bytes 24 Ref.counting <> next_bytes 24 (advance 24 Ref.counting).
Proof. vm_compute. discriminate. Qed.

Lemma successive_encryptions_witness :
  nonce hello_box <> nonce hello_box2 /\
  exists msg p s b1 b2,
    util.decodeUTF8 (js "hello") = Ok msg /\
    util.decodeBase64 (publicKey bob) = Ok p /\
    util.decodeBase64 (privateKey alice) = Ok s /\
    nacl.box Ref.prim msg (next_bytes 24 Ref.counting) p s = Ok b1 /\
    nacl.box Ref.prim msg (next_bytes 24 (advance 24 Ref.counting)) p s
    = Ok b2 /\
    ciphertext hello_box = util.encodeBase64 b1 /\
    ciphertext hello_box2 = util.encodeBase64 b2 /\
    (ciphertext hello_box = ciphertext hello_box2 <-> b1 = b2).
Proof.
  exact (proj1 (successive_encryptions Ref.prim Ref.aead Ref_component_codec)
           (js "hello") (publicKey bob) (privateKey alice) Ref.counting
           (advance 24 Ref.counting) (advance 24 (advance 24 Ref.counting))
           hello_box hello_box2 eq_refl eq_refl sample_draws_differ).
Defined.

Lemma successive_encryptions_counterexample :
  (forall prim : nacl.core,
     nacl.shared_key_size prim -> nacl.box_overhead prim ->
     forall pk sk,
       base64_of_length 32 pk -> base64_of_length 32 sk ->
       exists g c1 g1 c2 g2,
         encryptAsymmetric prim [] pk sk g = (Ok c1, g1) /\
         encryptAsymmetric prim [] pk sk g1 = (Ok c2, g2) /\
         next_bytes 24 g <> next_bytes 24 g1 /\
         ciphertext c1 = ciphertext c2) /\
  (forall a : SymmetricCipher.aead,
     SymmetricCipher.aead_keeps_length a ->
     forall K g g1 g2 c1 c2,
       encryptSymmetric (SymmetricCipher.AesGCM a) [] K g = (Ok c1, g1) ->
       encryptSymmetric (SymmetricCipher.AesGCM a) [] K g1 = (Ok c2, g2) ->
       AesGCM.ciphertext c1 = AesGCM.ciphertext c2) /\
  (exists c1 c2,
     encryptSymmetric (SymmetricCipher.AesGCM Ref.aead) [] sample_key
       Ref.counting = (Ok c1, advance 12 Ref.counting) /\
     encryptSymmetric (SymmetricCipher.AesGCM Ref.aead) [] sample_key
       (advance 12 Ref.counting)
     = (Ok c2, advance 12 (advance 12 Ref.counting)) /\
     next_bytes 12 Ref.counting <> next_bytes 12 (advance 12 Ref.counting) /\
     AesGCM.iv c1 <> AesGCM.iv c2 /\
     AesGCM.ciphertext c1 = [] /\ AesGCM.ciphertext c2 = []).
Proof.
  split; [exact repeated_box|]. split.
  - intros a Hl K g g1 g2 c1 c2 H1 H2.
    rewrite (empty_plaintext_ciphertext a Hl K g g1 c1 H1).
    now rewrite (empty_plaintext_ciphertext a Hl K g1 g2 c2 H2).
  - do 2 eexists. split; [vm_compute; reflexivity|].
    split; [vm_compute; reflexivity|].
    split; [vm_compute; discriminate|].
    split; [vm_compute; discriminate|].
    split; vm_compute; reflexivity.
Qed.
